(** * EventWhisper: the filter / normalise / project pipeline

    A shallow embedding of [eventwhisper/utils/*.py] and
    [eventwhisper/evtxio/evtxio.py], and the properties of the
    specification that are settled on it.

    Python values are embedded as they are at run time: a [str] is a
    sequence of Unicode code points, an [int] is an unbounded integer, a
    [dict] is an insertion-ordered association, an exception is an explicit
    [Raise] result.  What belongs to the interpreter rather than to the
    repository (the Unicode case and digit tables, [int()], [json.loads],
    [datetime.fromisoformat], [datetime.strptime], [repr]) is an interface,
    [Builtins]; the theorems are proved for every implementation of it, and
    the closed examples run on a reference implementation.  The constants
    of [utils/config.py] are parameters as well ([Config]). *)

From Stdlib Require Import ZArith String Ascii DecimalString Lia.
From stdpp Require Import base tactics option list gmap.

Local Open Scope Z_scope.

(** ** Python strings *)

(** A [str] is a list of code points. *)
Abbreviation pystr := (list N).

(** An ASCII literal as a [str]. *)
Definition str (s : string) : pystr :=
  (λ a, N_of_ascii a) <$> list_ascii_of_string s.

Module Str.

(** [str.isspace] on one code point: the ASCII table of CPython, then the
    code points with the White_Space property or bidirectional type WS, B
    or S. *)
Definition isspace (c : N) : bool :=
  ((9 <=? c) && (c <=? 13) || (28 <=? c) && (c <=? 32)
   || (c =? 133) || (c =? 160) || (c =? 5760)
   || (8192 <=? c) && (c <=? 8202)
   || (c =? 8232) || (c =? 8233) || (c =? 8239) || (c =? 8287)
   || (c =? 12288))%N.

Fixpoint lstrip (s : pystr) : pystr :=
  match s with
  | c :: s' => if isspace c then lstrip s' else s
  | [] => []
  end.

Definition rstrip (s : pystr) : pystr := reverse (lstrip (reverse s)).

(** [s.strip()] *)
Definition strip (s : pystr) : pystr := rstrip (lstrip s).

(** [s[1:-1]] *)
Definition slice_1_m1 (s : pystr) : pystr :=
  take (length s - 2)%nat (drop 1 s).

(** [s[:-n]] for [n > 0] *)
Definition drop_end (n : nat) (s : pystr) : pystr :=
  take (length s - n)%nat s.

Fixpoint startswith (p s : pystr) : bool :=
  match p, s with
  | [], _ => true
  | a :: p', b :: s' => (a =? b)%N && startswith p' s'
  | _ :: _, [] => false
  end.

Definition endswith (p s : pystr) : bool :=
  startswith (reverse p) (reverse s).

(** [k in s] on strings: [k] occurs as a contiguous substring of [s]. *)
Fixpoint contains (k s : pystr) : bool :=
  startswith k s ||
  match s with
  | [] => false
  | _ :: s' => contains k s'
  end.

(** [c in s] for a single character [c]. *)
Definition has_char (c : N) (s : pystr) : bool :=
  existsb (N.eqb c) s.

(** [s.split(sep)] for a one-character separator: never empty. *)
Fixpoint split (sep : N) (s : pystr) : list pystr :=
  match s with
  | [] => [[]]
  | c :: s' =>
      if (c =? sep)%N then [] :: split sep s'
      else match split sep s' with
           | p :: ps => (c :: p) :: ps
           | [] => [[c]]
           end
  end.

(** [s.replace(a, b)] for one-character [a] and [b]. *)
Definition replace (a b : N) (s : pystr) : pystr :=
  (λ c, if (c =? a)%N then b else c) <$> s.

(** [s.lstrip(chars)]: drop leading characters that occur in [chars]. *)
Fixpoint lstrip_chars (chars : list N) (s : pystr) : pystr :=
  match s with
  | c :: s' => if existsb (N.eqb c) chars then lstrip_chars chars s' else s
  | [] => []
  end.

(** Truthiness of a string: [bool(s)]. *)
Definition nonempty (s : pystr) : bool :=
  match s with [] => false | _ :: _ => true end.

Definition eqb (a b : pystr) : bool := bool_decide (a = b).

End Str.

(** ** utils/normalize_wrapping_quotes.py *)

(** [_QUOTE_PAIRS]: opening -> closing quotation mark. *)
Definition _QUOTE_PAIRS : list (N * N) :=
  [ (34, 34);       (* straight double quote *)
    (39, 39);       (* straight single quote *)
    (96, 96);       (* backtick *)
    (8220, 8221);   (* curly double quotes U+201C U+201D *)
    (8216, 8217);   (* curly single quotes U+2018 U+2019 *)
    (171, 187);     (* guillemets U+00AB U+00BB *)
    (8249, 8250)    (* single angle quotes U+2039 U+203A *)
  ]%N.

(** [_QUOTE_PAIRS.get(first)] *)
Definition quote_closer (first : N) : option N :=
  snd <$> find (λ p, (fst p =? first)%N) _QUOTE_PAIRS.

(** The test of one iteration of the [while] loop: [len(s) >= 2], the first
    character opens a pair and the last one closes it. *)
Definition wrapped (s : pystr) : bool :=
  (2 <=? length s)%nat &&
  match head s, last s with
  | Some first, Some lst =>
      match quote_closer first with
      | Some closer => (lst =? closer)%N
      | None => false
      end
  | _, _ => false
  end.

(** The [while] loop.  Every iteration removes two characters, so
    [length s] iterations are always enough ([unwrap_loop_enough]). *)
Fixpoint unwrap_loop (fuel : nat) (s : pystr) : pystr :=
  match fuel with
  | O => s
  | S fuel' =>
      if wrapped s then unwrap_loop fuel' (Str.strip (Str.slice_1_m1 s))
      else s
  end.

Definition normalize_wrapping_quotes (s : pystr) : pystr :=
  let s := Str.strip s in
  unwrap_loop (length s) s.

(** ** Python values *)

(** A [datetime]: the wall-clock reading in microseconds since
    0001-01-01T00:00:00, and the UTC offset of its [tzinfo] in microseconds
    ([None] for a naive value). *)
Record datetime := { wall : Z; tzoffset : option Z }.

(** An aware datetime in UTC is its instant: microseconds since
    0001-01-01T00:00:00Z.  Comparison of aware datetimes is comparison of
    instants. *)
Abbreviation utc := Z (only parsing).

(** The values the pipeline sees: caller arguments, decoder records and
    decoded JSON.  A float is carried by its IEEE-754 bit pattern and never
    inspected.  A [dict] is its items in insertion order. *)
#[warnings="-register-all"]
Inductive pyval :=
| PNone
| PBool (b : bool)
| PInt (n : Z)
| PFloat (bits : Z)
| PStr (s : pystr)
| PList (l : list pyval)
| PDict (kvs : list (pystr * pyval))
| PDatetime (d : datetime).

(** [key in d] / [d[key]] / [d.get(key)] *)
Fixpoint dict_get (kvs : list (pystr * pyval)) (key : pystr) : option pyval :=
  match kvs with
  | [] => None
  | (k, v) :: kvs' => if Str.eqb k key then Some v else dict_get kvs' key
  end.

(** [d[key] = v]: overwrite in place, or append a new key. *)
Fixpoint dict_set (kvs : list (pystr * pyval)) (key : pystr) (v : pyval)
  : list (pystr * pyval) :=
  match kvs with
  | [] => [(key, v)]
  | (k, w) :: kvs' =>
      if Str.eqb k key then (k, v) :: kvs' else (k, w) :: dict_set kvs' key v
  end.

(** ** Exceptions *)

(** The result of code that may raise: a value, or an exception on its way
    to the nearest handler. *)
Inductive result (A : Type) :=
| Ok (a : A)
| Raise.
Arguments Ok {A} a.
Arguments Raise {A}.

#[global] Instance result_ret : MRet result := λ A, @Ok A.
#[global] Instance result_bind : MBind result := λ A B f m,
  match m with Ok a => f a | Raise => Raise end.
#[global] Instance result_fmap : FMap result := λ A B f m,
  match m with Ok a => Ok (f a) | Raise => Raise end.

(** [for x in xs: st = f x st], stopping at the first exception. *)
Fixpoint for_each {A S : Type} (f : A → S → result S) (xs : list A) (st : S)
  : result S :=
  match xs with
  | [] => Ok st
  | x :: xs' => st' ← f x st; for_each f xs' st'
  end.

(** ** The interpreter's side *)

(** What the repository calls but does not define.  [None] stands for the
    call raising ([ValueError] for [int], any exception for the parsers:
    every call site handles them alike). *)
Class Builtins := {
  (** [c.isdigit()] for a code point above U+007F *)
  unicode_digit : N → bool;
  (** [int(s)] and [int(s, 10)] on a string *)
  py_int : pystr → option Z;
  (** [s.lower()] and [s.upper()] *)
  str_lower : pystr → pystr;
  str_upper : pystr → pystr;
  (** [str(v)] for a value that is not a string *)
  py_repr : pyval → pystr;
  (** [json.loads(s)] *)
  json_loads : pystr → option pyval;
  (** [datetime.fromisoformat(s)] and [datetime.strptime(s, fmt)] *)
  fromisoformat : pystr → option datetime;
  strptime : pystr → pystr → option datetime;
  (** how deep calls may nest before [RecursionError] *)
  recursion_limit : nat;
}.

(** [utils/config.py]: the ceilings (and defaults) of the two limits. *)
Class Config := {
  RESULTS_LIMIT : Z;
  SCAN_LIMIT : Z;
}.

Section Pipeline.
Context `{Builtins} `{Config}.

(** [str(v)] *)
Definition py_str (v : pyval) : pystr :=
  match v with
  | PStr s => s
  | _ => py_repr v
  end.

(** [s.isdigit()]: at least one character, all of them digits. *)
Definition isdigit_char (c : N) : bool :=
  if (c <? 128)%N then (48 <=? c)%N && (c <=? 57)%N else unicode_digit c.

Definition isdigit (s : pystr) : bool :=
  Str.nonempty s && forallb isdigit_char s.

(** *** utils/normalize_value.py *)

(** A [bool] is an [int] for [isinstance]; [True > 0] holds and the value
    returned, [True], is the integer 1. *)
Definition normalize_int (value : pyval) (default : Z) : option Z :=
  match value with
  | PNone => Some default
  | PBool b => if 0 <? Z.b2z b then Some (Z.b2z b) else None
  | PInt n => if 0 <? n then Some n else None
  | PStr v =>
      let s := Str.strip (normalize_wrapping_quotes v) in
      match py_int s with
      | Some i => if 0 <? i then Some i else None
      | None => None
      end
  | _ => None
  end.

(** *** utils/normalize_lists.py *)

(** [_is_seq(value)] and, when it holds, the items [for item in value]
    visits: the elements of a list, the keys of a dict. *)
Definition seq_items (value : pyval) : option (list pyval) :=
  match value with
  | PList l => Some l
  | PDict kvs => Some ((λ kv, PStr (fst kv)) <$> kvs)
  | _ => None
  end.

Definition _split_multi (s : pystr) : list pystr :=
  Str.strip <$>
    filter (λ p, Str.nonempty (Str.strip p) = true)
           (Str.split 44 (Str.replace 59 44 s)).

Definition _maybe_load_json_array (s : pystr) : option (list pyval) :=
  if Str.startswith (str "[") s && Str.endswith (str "]") s then
    match json_loads s with
    | Some (PList arr) => Some arr
    | _ => None
    end
  else None.

(** [parts = _split_multi(s) or [s]] *)
Definition split_or_self (s : pystr) : list pystr :=
  match _split_multi s with
  | [] => [s]
  | parts => parts
  end.

(** The closure state of both list normalisers: [out] and [seen]. *)
Record acc (A : Type) `{Countable A} := { out : list A; seen : gset A }.
Arguments out {A _ _} a.
Arguments seen {A _ _} a.

Definition acc_empty {A} `{Countable A} : acc A :=
  {| out := []; seen := ∅ |}.

(** [if x not in seen: seen.add(x); out.append(x)] *)
Definition acc_add {A} `{Countable A} (x : A) (st : acc A) : acc A :=
  if bool_decide (x ∈ seen st) then st
  else {| out := out st ++ [x]; seen := {[x]} ∪ seen st |}.

(** One part of a comma/semicolon-separated token of [normalize_int_list]. *)
Definition int_part (p : pystr) (st : acc Z) : acc Z :=
  let p_norm := Str.strip (normalize_wrapping_quotes p) in
  if negb (Str.nonempty p_norm) then st
  else
    let body := Str.lstrip_chars (str "+-") p_norm in
    if isdigit body then
      match py_int p_norm with
      | Some n => acc_add n st
      | None => st
      end
    else st.

(** [handle_token] of [normalize_int_list]; [depth] is the number of
    nested calls still allowed. *)
Fixpoint int_handle_token (depth : nat) (tok : pyval) (st : acc Z)
  : result (acc Z) :=
  match depth with
  | O => Raise
  | S depth' =>
      match tok with
      | PInt n => Ok (acc_add n st)
      | _ =>
          let s := Str.strip (normalize_wrapping_quotes (py_str tok)) in
          if negb (Str.nonempty s) then Ok st
          else
            match _maybe_load_json_array s with
            | Some arr => for_each (int_handle_token depth') arr st
            | None => Ok (foldl (λ st p, int_part p st) st (split_or_self s))
            end
      end
  end.

Definition normalize_int_list (value : pyval) : result (list Z) :=
  match value with
  | PNone => Ok []
  | _ =>
      out <$>
        match seq_items value with
        | Some items =>
            for_each (int_handle_token recursion_limit) items acc_empty
        | None => int_handle_token recursion_limit value acc_empty
        end
  end.

(** [add_token] of [normalize_str_list] *)
Definition add_token (lowercase : bool) (txt : pystr) (st : acc pystr)
  : acc pystr :=
  let s := Str.strip (normalize_wrapping_quotes txt) in
  if negb (Str.nonempty s) then st
  else
    let s := if lowercase then str_lower s else s in
    acc_add s st.

(** [handle_token] of [normalize_str_list] *)
Fixpoint str_handle_token (lowercase : bool) (depth : nat) (tok : pyval)
  (st : acc pystr) : result (acc pystr) :=
  match depth with
  | O => Raise
  | S depth' =>
      let s := Str.strip (normalize_wrapping_quotes (py_str tok)) in
      if negb (Str.nonempty s) then Ok st
      else
        match _maybe_load_json_array s with
        | Some arr => for_each (str_handle_token lowercase depth') arr st
        | None =>
            Ok (foldl (λ st p, add_token lowercase p st) st (split_or_self s))
        end
  end.

Definition normalize_str_list (value : pyval) (lowercase : bool)
  : result (list pystr) :=
  match value with
  | PNone => Ok []
  | _ =>
      out <$>
        match seq_items value with
        | Some items =>
            for_each (str_handle_token lowercase recursion_limit) items
                     acc_empty
        | None => str_handle_token lowercase recursion_limit value acc_empty
        end
  end.


(** *** utils/normalize_timestamp.py *)

(** The last representable instant, 9999-12-31T23:59:59.999999. *)
Definition DATETIME_MAX : Z := 3652059 * 86400 * 1000000 - 1.

(** [dt.replace(tzinfo=utc)] for a naive value, [dt.astimezone(utc)] for an
    aware one.  Converting a value that is already in UTC is the identity;
    otherwise the offset is subtracted, and a result outside the
    representable years is [OverflowError]. *)
Definition to_utc (dt : datetime) : result utc :=
  match tzoffset dt with
  | None => Ok (wall dt)
  | Some off =>
      if off =? 0 then Ok (wall dt)
      else
        let u := wall dt - off in
        if (0 <=? u) && (u <=? DATETIME_MAX) then Ok u else Raise
  end.

(** The two nested [try] blocks: ISO-8601 first, then the [strptime]
    formats chosen by the characters present. *)
Definition parse_datetime (s : pystr) : option datetime :=
  match fromisoformat s with
  | Some dt => Some dt
  | None =>
      if Str.has_char 32 s && Str.has_char 58 s then
        if Str.has_char 46 s then strptime s (str "%Y-%m-%d %H:%M:%S.%f")
        else strptime s (str "%Y-%m-%d %H:%M:%S")
      else strptime s (str "%Y-%m-%d")
  end.

(** The string handed to the parsers: quotes stripped, a trailing " UTC"
    removed, a trailing "Z" rewritten as "+00:00". *)
Definition timestamp_text (value : pystr) : pystr :=
  let s := normalize_wrapping_quotes value in
  let s := if Str.endswith (str " UTC") (str_upper s)
           then Str.drop_end 4 s else s in
  if Str.endswith (str "Z") s then Str.drop_end 1 s ++ str "+00:00" else s.

Definition normalize_timestamp (value : pyval) (fallback : option utc)
  : result (option utc) :=
  match value with
  | PNone => Ok fallback
  | PDatetime d => Some <$> to_utc d
  | PStr v =>
      match parse_datetime (timestamp_text v) with
      | Some dt => Some <$> to_utc dt
      | None => Ok fallback
      end
  | _ => Ok fallback
  end.

(** ** evtxio/evtxio.py: helpers *)

(** The body of [_get_dotted], one path segment at a time.  [int(part)] is
    not guarded: a segment that passes [isdigit] but is no integer literal
    raises. *)
Fixpoint walk_path (cur : pyval) (parts : list pystr) : result pyval :=
  match parts with
  | [] => Ok cur
  | part :: parts' =>
      match cur with
      | PDict kvs =>
          match dict_get kvs part with
          | Some v => walk_path v parts'
          | None => Ok PNone
          end
      | PList l =>
          if isdigit part then
            match py_int part with
            | Some idx =>
                if (0 <=? idx) && (idx <? Z.of_nat (length l)) then
                  match l !! Z.to_nat idx with
                  | Some v => walk_path v parts'
                  | None => Ok PNone
                  end
                else Ok PNone
            | None => Raise
            end
          else Ok PNone
      | _ => Ok PNone
      end
  end.

Definition _get_dotted (obj : pyval) (dotted : pystr) : result pyval :=
  walk_path obj (Str.split 46 dotted).

(** [None] is Python's [None]; a [bool] is returned as the integer it is;
    the first of the three keys present in a dict decides.  Each wrapper
    costs one nested call: [depth] is the number of nested calls still
    allowed, and running out of them is [RecursionError]. *)
Fixpoint _as_event_id (depth : nat) (value : pyval) : result (option Z) :=
  match depth with
  | O => Raise
  | S depth' =>
      match value with
      | PNone => Ok None
      | PBool b => Ok (Some (Z.b2z b))
      | PInt n => Ok (Some n)
      | PStr s => Ok (py_int s)
      | PDict kvs =>
          match dict_get kvs (str "#text") with
          | Some inner => _as_event_id depth' inner
          | None =>
              match dict_get kvs (str "value") with
              | Some inner => _as_event_id depth' inner
              | None =>
                  match dict_get kvs (str "Value") with
                  | Some inner => _as_event_id depth' inner
                  | None => Ok None
                  end
              end
          end
      | _ => Ok None
      end
  end.

Definition is_none (v : pyval) : bool :=
  match v with PNone => true | _ => false end.

(** [data.get("Event", {}) if isinstance(data, dict) else {}] *)
Definition event_root (data : pyval) : pyval :=
  match data with
  | PDict kvs => default (PDict []) (dict_get kvs (str "Event"))
  | _ => PDict []
  end.

(** One iteration of the loop of [_project_fields]. *)
Definition project_one (data : pyval) (f : pystr)
  (out : list (pystr * pyval)) : result (list (pystr * pyval)) :=
  val ← _get_dotted data f;
  val ← (if is_none val then _get_dotted (event_root data) f else Ok val);
  Ok (dict_set out f val).

Definition _project_fields (data : pyval) (fields : list pystr)
  : result pyval :=
  PDict <$> for_each (project_one data) fields [].


(** ** evtxio/evtxio.py: the event stream filter *)

(** What the decoder hands over for one record: [record.get("data")] and
    [record.get("timestamp")] ([PNone] when the key is missing). *)
Record raw_record := { data : pyval; timestamp : pyval }.

(** One pull from [parser.records_json()]: a record, or the decoder
    raising. *)
Inductive pulled :=
| Rec (r : raw_record)
| DecoderError.

(** What [Path(...)] names on disk: nothing that [is_file()], a file the
    decoder refuses to open ([PyEvtxParser(...)] raises), or a log and the
    pulls it answers with. *)
Inductive fs_entry :=
| NotAFile
| Unreadable
| Evtx (records : list pulled).

(** The local variables of [iter_events_from_evtx] once the arguments are
    normalised; the loop only reads them. *)
Record FilterSpec := {
  lim : Z;
  cap : Z;
  start_dt : option utc;
  end_dt : option utc;
  contains_lc : list pystr;
  not_contains_lc : list pystr;
  wanted_ids : gset Z;
  fields_norm : option (list pystr);
}.

(** The two counters of the loop, and their values when it starts. *)
Record counters := { returned : Z; scanned : Z }.

Definition zero : counters := {| returned := 0; scanned := 0 |}.

(** How the loop body leaves a record: [continue], [yield], or an exception
    that the enclosing [try] swallows. *)
Inductive step :=
| Skip
| Yield (v : pyval)
| Abort.

(** Truthiness of a list. *)
Definition truthy {A} (l : list A) : bool :=
  match l with [] => false | _ :: _ => true end.

(** The keyword fast path on the lowercased payload; [true] lets the
    record through. *)
Definition keywords_ok (sp : FilterSpec) (lower : pystr) : bool :=
  negb (truthy (contains_lc sp)
        && negb (existsb (λ k, Str.contains k lower) (contains_lc sp)))
  && negb (truthy (not_contains_lc sp)
           && existsb (λ k, Str.contains k lower) (not_contains_lc sp)).

(** [not (wanted_ids and (eid is None or eid not in wanted_ids))] *)
Definition event_id_ok (sp : FilterSpec) (eid : option Z) : bool :=
  negb (negb (bool_decide (wanted_ids sp = ∅))
        && match eid with
           | None => true
           | Some n => negb (bool_decide (n ∈ wanted_ids sp))
           end).

(** [normalize_timestamp(ts) or normalize_timestamp(record.get("timestamp"))] *)
Definition event_time (ts : pyval) (r : raw_record) : result (option utc) :=
  dt ← normalize_timestamp ts None;
  match dt with
  | Some _ => Ok dt
  | None => normalize_timestamp (timestamp r) None
  end.

(** The two range tests: a record is dropped when it is strictly before
    [start] or strictly after [end]. *)
Definition time_ok (start_ end_ : option utc) (event_dt : utc) : bool :=
  negb (match start_ with Some s => event_dt <? s | None => false end)
  && negb (match end_ with Some e => event_dt >? e | None => false end).

(** [yield _project_fields(data, fields_norm)] or [yield data] *)
Definition emit (sp : FilterSpec) (data : pyval) : step :=
  match fields_norm sp with
  | Some (f :: fs) =>
      match _project_fields data (f :: fs) with
      | Ok projected => Yield projected
      | Raise => Abort
      end
  | _ => Yield data
  end.

(** The loop body after [scanned += 1]. *)
Definition process_record (sp : FilterSpec) (r : raw_record) : step :=
  match data r with
  | PStr data_str =>
      if negb (Str.nonempty data_str) then Skip
      else if negb (keywords_ok sp (str_lower data_str)) then Skip
      else
        match json_loads data_str with
        | None => Skip
        | Some data =>
            match _get_dotted data (str "Event.System.EventID") with
            | Raise => Abort
            | Ok eid_raw =>
                match _as_event_id recursion_limit eid_raw with
                | Raise => Abort
                | Ok eid =>
                    if negb (event_id_ok sp eid) then Skip
                    else
                      match
                        ts ← _get_dotted data
                          (str "Event.System.TimeCreated.#attributes.SystemTime");
                        event_time ts r
                      with
                      | Raise => Abort
                      | Ok None => Skip
                      | Ok (Some event_dt) =>
                          if time_ok (start_dt sp) (end_dt sp) event_dt
                          then emit sp data
                          else Skip
                      end
                end
            end
        end
  | _ => Skip
  end.

(** [for record in parser.records_json(): ...] inside [try/except
    Exception: pass].  The result is what the generator yields, in order,
    and the counters when it returns. *)
Fixpoint records_loop (sp : FilterSpec) (records : list pulled)
  (st : counters) : list pyval * counters :=
  match records with
  | [] => ([], st)
  | DecoderError :: _ => ([], st)
  | Rec r :: records' =>
      if cap sp <=? scanned st then ([], st)
      else if lim sp <=? returned st then ([], st)
      else
        let st := {| returned := returned st; scanned := scanned st + 1 |} in
        match process_record sp r with
        | Skip => records_loop sp records' st
        | Abort => ([], st)
        | Yield v =>
            let st := {| returned := returned st + 1;
                         scanned := scanned st |} in
            let '(vs, st') := records_loop sp records' st in
            (v :: vs, st')
        end
  end.

(** [if start and end and start > end: start, end = end, start] *)
Definition swap_if_reversed (start_ end_ : option utc)
  : option utc * option utc :=
  match start_, end_ with
  | Some s, Some e => if s >? e then (Some e, Some s) else (start_, end_)
  | _, _ => (start_, end_)
  end.

(** The overlap removal between the two keyword lists. *)
Definition remove_overlaps (contains_lc not_contains_lc : list pystr)
  : list pystr * list pystr :=
  if truthy contains_lc && truthy not_contains_lc then
    let overlap : gset pystr :=
      list_to_set contains_lc ∩ list_to_set not_contains_lc in
    if negb (bool_decide (overlap = ∅)) then
      (filter (λ s, s ∉ overlap) contains_lc,
       filter (λ s, s ∉ overlap) not_contains_lc)
    else (contains_lc, not_contains_lc)
  else (contains_lc, not_contains_lc).

(** [normalize_timestamp(x, fallback=utc_now) if x is not None else None] *)
Definition normalize_bound (utc_now : utc) (x : pyval)
  : result (option utc) :=
  match x with
  | PNone => Ok None
  | _ => normalize_timestamp x (Some utc_now)
  end.

(** Everything between the limit checks and the loop: the normalised
    filter, or the exception a normaliser raised. *)
Definition prepare (utc_now : utc) (lim_ cap_ : Z)
  (start_ end_ event_ids contains_ not_contains_ fields_ : pyval)
  : result FilterSpec :=
  s ← normalize_bound utc_now start_;
  e ← normalize_bound utc_now end_;
  let '(s, e) := swap_if_reversed s e in
  inc ← normalize_str_list contains_ true;
  exc ← normalize_str_list not_contains_ true;
  let '(inc, exc) := remove_overlaps inc exc in
  ids ← normalize_int_list event_ids;
  fields_norm_ ← match fields_ with
                 | PNone => Ok None
                 | _ => Some <$> normalize_str_list fields_ false
                 end;
  Ok {| lim := lim_; cap := cap_; start_dt := s; end_dt := e;
        contains_lc := inc; not_contains_lc := exc;
        wanted_ids := list_to_set ids; fields_norm := fields_norm_ |}.

(** [PyEvtxParser(str(path))] on a path that [is_file()]. *)
Definition open_parser (entry : fs_entry) : result (list pulled) :=
  match entry with
  | Evtx records => Ok records
  | _ => Raise
  end.

(** [iter_events_from_evtx], run to exhaustion, with the final counters.
    [fs] is the file system, [utc_now] the reading of the clock; the
    arguments follow the signature.  [Raise] is an exception reaching the
    caller. *)
Definition iter_events_trace (fs : pystr → fs_entry) (utc_now : utc)
  (evtx_path : pystr)
  (start_ end_ results_limit scan_limit event_ids contains_ not_contains_
   fields_ : pyval)
  : result (list pyval * counters) :=
  let path := normalize_wrapping_quotes evtx_path in
  match fs path with
  | NotAFile => Ok ([], zero)
  | entry =>
      match normalize_int results_limit RESULTS_LIMIT with
      | None => Ok ([], zero)
      | Some l =>
          let lim_ := Z.min l RESULTS_LIMIT in
          match normalize_int scan_limit SCAN_LIMIT with
          | None => Ok ([], zero)
          | Some c =>
              let cap_ := Z.min c SCAN_LIMIT in
              sp ← prepare utc_now lim_ cap_ start_ end_ event_ids
                     contains_ not_contains_ fields_;
              records ← open_parser entry;
              Ok (records_loop sp records zero)
          end
      end
  end.

(** What the caller of the generator collects. *)
Definition iter_events_from_evtx (fs : pystr → fs_entry) (utc_now : utc)
  (evtx_path : pystr)
  (start_ end_ results_limit scan_limit event_ids contains_ not_contains_
   fields_ : pyval)
  : result (list pyval) :=
  fst <$> iter_events_trace fs utc_now evtx_path start_ end_ results_limit
            scan_limit event_ids contains_ not_contains_ fields_.

End Pipeline.

(** ** A reference interpreter for closed examples

    One implementation of [Builtins], restricted to what the examples
    below need; on that fragment it returns what CPython returns.
    - digits: ASCII and the three Latin-1 superscripts (the [isdigit]
      characters below U+0100);
    - [int]: surrounding whitespace, an optional sign, ASCII digits;
    - case mapping: ASCII letters;
    - [repr]: [None], booleans and integers;
    - [json.loads]: objects, arrays, strings without escapes, integers,
      [true], [false], [null];
    - [fromisoformat]: [YYYY-MM-DD], optionally followed by one separator,
      [HH:MM], [:SS], [.fff] or [.ffffff], and an offset [+HH:MM] or
      [-HH:MM];
    - [strptime]: always fails (the examples use only text that
      [fromisoformat] accepts or that is no date at all). *)
Module Reference.

Definition ascii_digit (c : N) : option Z :=
  if (48 <=? c)%N && (c <=? 57)%N then Some (Z.of_N c - 48) else None.

(** Leading ASCII digits of [s], as a number, with what follows. *)
Fixpoint digits (acc : Z) (n : nat) (s : pystr) : Z * nat * pystr :=
  match s with
  | c :: s' =>
      match ascii_digit c with
      | Some d => digits (10 * acc + d) (S n) s'
      | None => (acc, n, s)
      end
  | [] => (acc, n, [])
  end.

Definition int_literal (s : pystr) : option Z :=
  let s := Str.strip s in
  let '(sign, body) :=
    match s with
    | 43%N :: b => (1, b)
    | 45%N :: b => (-1, b)
    | _ => (1, s)
    end in
  match digits 0 0 body with
  | (v, S _, []) => Some (sign * v)
  | _ => None
  end.

Definition lower (s : pystr) : pystr :=
  (λ c, if (65 <=? c) && (c <=? 90) then c + 32 else c)%N <$> s.

Definition upper (s : pystr) : pystr :=
  (λ c, if (97 <=? c) && (c <=? 122) then c - 32 else c)%N <$> s.

Definition repr (v : pyval) : pystr :=
  match v with
  | PNone => str "None"
  | PBool true => str "True"
  | PBool false => str "False"
  | PInt n => str (NilZero.string_of_int (Z.to_int n))
  | _ => []
  end.

(** *** JSON *)

Definition json_ws (c : N) : bool :=
  ((c =? 32) || (c =? 9) || (c =? 10) || (c =? 13))%N.

Fixpoint skip_ws (s : pystr) : pystr :=
  match s with
  | c :: s' => if json_ws c then skip_ws s' else s
  | [] => []
  end.

(** The characters up to the closing quote; escapes and control
    characters are not handled. *)
Fixpoint string_body (s : pystr) : option (pystr * pystr) :=
  match s with
  | [] => None
  | c :: s' =>
      if (c =? 34)%N then Some ([], s')
      else if (c =? 92)%N || (c <? 32)%N then None
      else '(body, rest) ← string_body s'; Some (c :: body, rest)
  end.

Definition number (s : pystr) : option (pyval * pystr) :=
  let '(sign, body) :=
    match s with 45%N :: b => (-1, b) | _ => (1, s) end in
  match body, digits 0 0 body with
  | 48%N :: _, (_, S (S _), _) => None
  | _, (v, S _, rest) =>
      match rest with
      | c :: _ =>
          if ((c =? 46) || (c =? 101) || (c =? 69))%N then None
          else Some (PInt (sign * v), rest)
      | [] => Some (PInt (sign * v), rest)
      end
  | _, _ => None
  end.

Fixpoint value (fuel : nat) (s : pystr) : option (pyval * pystr) :=
  match fuel with
  | O => None
  | S fuel' =>
      match skip_ws s with
      | 123%N :: r =>
          match skip_ws r with
          | 125%N :: r' => Some (PDict [], r')
          | r' => members fuel' r' []
          end
      | 91%N :: r =>
          match skip_ws r with
          | 93%N :: r' => Some (PList [], r')
          | r' => elements fuel' r' []
          end
      | 34%N :: r => '(body, rest) ← string_body r; Some (PStr body, rest)
      | r =>
          if Str.startswith (str "true") r then Some (PBool true, drop 4 r)
          else if Str.startswith (str "false") r
          then Some (PBool false, drop 5 r)
          else if Str.startswith (str "null") r then Some (PNone, drop 4 r)
          else number r
      end
  end
with elements (fuel : nat) (s : pystr) (acc : list pyval)
  : option (pyval * pystr) :=
  match fuel with
  | O => None
  | S fuel' =>
      '(v, rest) ← value fuel' s;
      match skip_ws rest with
      | 44%N :: r => elements fuel' r (acc ++ [v])
      | 93%N :: r => Some (PList (acc ++ [v]), r)
      | _ => None
      end
  end
with members (fuel : nat) (s : pystr) (acc : list (pystr * pyval))
  : option (pyval * pystr) :=
  match fuel with
  | O => None
  | S fuel' =>
      match skip_ws s with
      | 34%N :: r =>
          '(key, rest) ← string_body r;
          match skip_ws rest with
          | 58%N :: r' =>
              '(v, rest') ← value fuel' r';
              match skip_ws rest' with
              | 44%N :: r'' => members fuel' r'' (dict_set acc key v)
              | 125%N :: r'' => Some (PDict (dict_set acc key v), r'')
              | _ => None
              end
          | _ => None
          end
      | _ => None
      end
  end.

Definition loads (s : pystr) : option pyval :=
  '(v, rest) ← value (2 * length s + 2) s;
  match skip_ws rest with
  | [] => Some v
  | _ => None
  end.

(** JSON text written with single quotes in place of double quotes. *)
Definition json (s : string) : pystr := Str.replace 39 34 (str s).

(** *** ISO-8601 *)

Definition leap (y : Z) : bool :=
  (y mod 4 =? 0) && (negb (y mod 100 =? 0) || (y mod 400 =? 0)).

Definition days_in_month (y m : Z) : Z :=
  if m =? 2 then (if leap y then 29 else 28)
  else if (m =? 4) || (m =? 6) || (m =? 9) || (m =? 11) then 30 else 31.

(** Days from 0001-01-01 to the first day of month [m] of year [y]. *)
Definition days_before (y m : Z) : Z :=
  let y' := y - 1 in
  365 * y' + y' / 4 - y' / 100 + y' / 400
  + foldr (λ k acc, (if k <? m then days_in_month y k else 0) + acc) 0
      [1; 2; 3; 4; 5; 6; 7; 8; 9; 10; 11].

(** Exactly [n] ASCII digits at the head of [s]. *)
Definition fixed (n : nat) (s : pystr) : option (Z * pystr) :=
  match digits 0 0 (take n s) with
  | (v, k, []) => if (k =? n)%nat then Some (v, drop n s) else None
  | _ => None
  end.

Definition expect (c : N) (s : pystr) : option pystr :=
  match s with
  | c' :: s' => if (c =? c')%N then Some s' else None
  | [] => None
  end.

Definition iso_date (s : pystr) : option (Z * pystr) :=
  '(y, s) ← fixed 4 s; s ← expect 45 s;
  '(m, s) ← fixed 2 s; s ← expect 45 s;
  '(d, s) ← fixed 2 s;
  if (1 <=? y) && (1 <=? m) && (m <=? 12) && (1 <=? d)
     && (d <=? days_in_month y m)
  then Some (days_before y m + (d - 1), s) else None.

(** [HH:MM[:SS[.fff[fff]]]] in microseconds. *)
Definition iso_time (s : pystr) : option (Z * pystr) :=
  '(h, s) ← fixed 2 s; s ← expect 58 s;
  '(mi, s) ← fixed 2 s;
  '(sec, us, s) ←
    match s with
    | 58%N :: s1 =>
        '(sec, s2) ← fixed 2 s1;
        match s2 with
        | 46%N :: s3 =>
            match fixed 6 s3 with
            | Some (f, s4) => Some (sec, f, s4)
            | None => '(f, s4) ← fixed 3 s3; Some (sec, 1000 * f, s4)
            end
        | _ => Some (sec, 0, s2)
        end
    | _ => Some (0, 0, s)
    end;
  if (h <? 24) && (mi <? 60) && (sec <? 60)
  then Some (((h * 60 + mi) * 60 + sec) * 1000000 + us, s) else None.

Definition iso_offset (s : pystr) : option (option Z) :=
  match s with
  | [] => Some None
  | c :: s' =>
      sign ← (if (c =? 43)%N then Some 1
              else if (c =? 45)%N then Some (-1) else None);
      '(h, s1) ← fixed 2 s'; s2 ← expect 58 s1;
      '(mi, s3) ← fixed 2 s2;
      match s3 with
      | [] => if (h <? 24) && (mi <? 60)
              then Some (Some (sign * (h * 60 + mi) * 60000000)) else None
      | _ => None
      end
  end.

Definition isoformat (s : pystr) : option datetime :=
  '(days, s1) ← iso_date s;
  match s1 with
  | [] => Some {| wall := days * 86400000000; tzoffset := None |}
  | _ :: s2 =>
      '(us, s3) ← iso_time s2;
      off ← iso_offset s3;
      Some {| wall := days * 86400000000 + us; tzoffset := off |}
  end.

#[export] Instance builtins : Builtins := {|
  unicode_digit c := ((c =? 178) || (c =? 179) || (c =? 185))%N;
  py_int := int_literal;
  str_lower := lower;
  str_upper := upper;
  py_repr := repr;
  json_loads := loads;
  fromisoformat := isoformat;
  strptime _ _ := None;
  recursion_limit := 1000;
|}.

(** A configuration in the spirit of [utils/config.py]. *)
#[export] Instance config : Config := {|
  RESULTS_LIMIT := 1000;
  SCAN_LIMIT := 100000;
|}.

End Reference.

(** ** Notions the properties are stated with *)

(** Nested layers of quotation marks around a core, outermost first. *)
Definition wrap_layers (layers : list (N * N)) (core : pystr) : pystr :=
  foldr (λ q inner, fst q :: inner ++ [snd q]) core layers.

(** The yields of a run of loop steps: those before the first exception. *)
Fixpoint yields (steps : list step) : list pyval :=
  match steps with
  | [] => []
  | Skip :: steps' => yields steps'
  | Yield v :: steps' => v :: yields steps'
  | Abort :: _ => []
  end.

Section Notions.
Context `{Builtins}.

(** What one pull turns into when the loop examines it. *)
Definition classify (sp : FilterSpec) (p : pulled) : step :=
  match p with
  | Rec r => process_record sp r
  | DecoderError => Abort
  end.

(** A parseable record and its event: the payload is non-empty text that
    [json.loads] accepts. *)
Definition event_of (r : raw_record) : option pyval :=
  match data r with
  | PStr data_str =>
      if Str.nonempty data_str then json_loads data_str else None
  | _ => None
  end.

Definition parseable_event (p : pulled) : option pyval :=
  match p with
  | Rec r => event_of r
  | DecoderError => None
  end.

(** The time of an event: its SystemTime attribute, else the positional
    timestamp of the record. *)
Definition time_of (ev : pyval) (r : raw_record) : result (option utc) :=
  ts ← _get_dotted ev (str "Event.System.TimeCreated.#attributes.SystemTime");
  event_time ts r.

(** The loop step of a call without constraints, in the terms above: a
    record is yielded when it is parseable and its time can be
    determined. *)
Definition plain_step (p : pulled) : step :=
  match p with
  | DecoderError => Abort
  | Rec r =>
      match event_of r with
      | None => Skip
      | Some ev =>
          match time_of ev r with
          | Ok (Some _) => Yield ev
          | _ => Skip
          end
      end
  end.

(** Reading the event id and the time of a record raises no exception:
    no [RecursionError] from [_as_event_id], no [OverflowError] from the
    conversion of its time to UTC. *)
Definition reads_cleanly (p : pulled) : Prop :=
  match p with
  | DecoderError => True
  | Rec r =>
      ∀ ev, event_of r = Some ev →
        (∀ eid_raw,
           _get_dotted ev (str "Event.System.EventID") = Ok eid_raw →
           _as_event_id recursion_limit eid_raw ≠ Raise)
        ∧ time_of ev r ≠ Raise
  end.

(** The same as a check that runs. *)
Definition reads_cleanlyb (p : pulled) : bool :=
  match p with
  | DecoderError => true
  | Rec r =>
      match event_of r with
      | None => true
      | Some ev =>
          match _get_dotted ev (str "Event.System.EventID") with
          | Ok eid_raw =>
              match _as_event_id recursion_limit eid_raw with
              | Ok _ => true
              | Raise => false
              end
          | Raise => true
          end
          && match time_of ev r with Ok _ => true | Raise => false end
      end
  end.

(** The filter a call without constraints runs under. *)
Definition unconstrained (l c : Z) : FilterSpec :=
  {| lim := l; cap := c; start_dt := None; end_dt := None;
     contains_lc := []; not_contains_lc := []; wanted_ids := ∅;
     fields_norm := None |}.

(** The output of an unconstrained call as the specification words it:
    the events of the parseable records, in arrival order, cut at the
    result limit. *)
Definition every_parseable_record (lim_ : Z) (records : list pulled)
  : list pyval :=
  take (Z.to_nat lim_) (omap parseable_event records).

(** The value a requested path is given by projection: what it resolves to
    from the root, else from inside the envelope. *)
Definition resolve (data : pyval) (f : pystr) : result pyval :=
  val ← _get_dotted data f;
  if is_none val then _get_dotted (event_root data) f else Ok val.

(** No segment of the path makes [int()] raise. *)
Definition int_safe (f : pystr) : Prop :=
  Forall (λ part, isdigit part = true → is_Some (py_int part))
         (Str.split 46 f).

End Notions.

(** ** Sample data for closed examples *)
Module Sample.
Import Reference.

(** A Sysmon-like event payload: its id, its time, the image it names. *)
Definition payload (eid time image : string) : pystr :=
  json ("{'Event':{'System':{'EventID':" ++ eid
        ++ ",'TimeCreated':{'#attributes':{'SystemTime':'" ++ time
        ++ "'}}},'EventData':{'Image':'" ++ image ++ "'}}}").

Definition notepad : raw_record :=
  {| data := PStr (payload "1" "2019-07-19T15:11:16.487990Z" "notepad.exe");
     timestamp := PStr (str "2019-07-19 15:11:16.487990 UTC") |}.

Definition lsass : raw_record :=
  {| data := PStr (payload "10" "2019-07-19T15:11:26.642464Z" "lsass.exe");
     timestamp := PStr (str "2019-07-19 15:11:26.642464 UTC") |}.

(** A logon event whose data is a list. *)
Definition logon : raw_record :=
  {| data :=
       PStr (json ("{'Event':{'System':{'EventID':4624,'TimeCreated':"
                   ++ "{'#attributes':{'SystemTime':"
                   ++ "'2019-07-19T15:12:00.000000Z'}}},"
                   ++ "'EventData':{'Data':['alice','10.0.0.5']}}}"));
     timestamp := PStr (str "2019-07-19 15:12:00.000000 UTC") |}.

(** A parseable payload that carries no time, in a record without a
    positional timestamp. *)
Definition timeless : raw_record :=
  {| data := PStr (json "{'Event':{}}"); timestamp := PNone |}.

(** The events the payloads decode to. *)
Definition event (r : raw_record) : pyval :=
  match data r with
  | PStr s => default PNone (json_loads s)
  | _ => PNone
  end.

(** A file system with one log. *)
Definition disk (records : list pulled) : pystr → fs_entry :=
  λ path, if Str.eqb path (str "C:\Logs\Sysmon.evtx") then Evtx records
          else NotAFile.

Definition log_path : pystr := str "`C:\Logs\Sysmon.evtx`".

(** 2024-01-01T00:00:00Z *)
Definition clock : Z := 63839664000000000.


(** A filter for events 1 and 10 that mention "exe", projected on the
    event id, with room for two results out of three records. *)
Definition spec : FilterSpec :=
  {| lim := 2; cap := 3; start_dt := None; end_dt := Some clock;
     contains_lc := [str "exe"]; not_contains_lc := [str "powershell"];
     wanted_ids := {[1; 10]};
     fields_norm := Some [str "Event.System.EventID"] |}.

End Sample.


(** ** Notions for the further properties *)

(** The element type of a closure state is read off the state. *)
Arguments out {A _ _} a.
Arguments seen {A _ _} a.

(** The invariant of the closures of the list normalisers: [seen] is the
    set of [out], and [out] holds nothing twice. *)
Definition acc_wf {A} `{Countable A} (st : acc A) : Prop :=
  NoDup (out st) ∧ ∀ x, x ∈ seen st ↔ x ∈ out st.

(** One step of a list normaliser: the invariant is kept, [out] only grows
    at its end, and what is added satisfies [P]. *)
Definition grows {A} `{Countable A} (P : A → Prop) (st st' : acc A) : Prop :=
  (acc_wf st → acc_wf st')
  ∧ (∃ new, out st' = out st ++ new ∧ Forall P new).

Section MoreNotions.
Context `{Builtins} `{Config}.

(** What [add_token] appends: a non-empty string in the normal form of
    the quote normaliser, lowered when asked. *)
Definition token_form (lowercase : bool) (s : pystr) : Prop :=
  ∃ t, t ≠ [] ∧ normalize_wrapping_quotes t = t
       ∧ s = if lowercase then str_lower t else t.

(** A string that [normalize_str_list] takes as one token and keeps as it
    is: in normal form, non-empty, without comma or semicolon, not read as
    a JSON array, and already lowered when lowering is asked. *)
Definition plain_token (lowercase : bool) (s : pystr) : Prop :=
  s ≠ [] ∧ normalize_wrapping_quotes s = s
  ∧ (44%N ∉ s) ∧ (59%N ∉ s)
  ∧ _maybe_load_json_array s = None
  ∧ (if lowercase then str_lower s = s else True).

End MoreNotions.

Section TimeNotions.
Context `{Builtins} `{Config}.

(** The datetime a value stands for, when it stands for one: the value
    itself, or what the parsers read from a string. *)
Definition datetime_of (value : pyval) : option datetime :=
  match value with
  | PDatetime d => Some d
  | PStr s => parse_datetime (timestamp_text s)
  | _ => None
  end.

End TimeNotions.

(** A datetime whose conversion to UTC leaves the representable years. *)
Definition overflows (d : datetime) : Prop :=
  ∃ off, tzoffset d = Some off ∧ off ≠ 0
         ∧ ¬ (0 ≤ wall d - off ≤ DATETIME_MAX).

(** The instant of a datetime: its wall clock less its offset. *)
Definition instant (d : datetime) : Z :=
  wall d - default 0 (tzoffset d).

(** A list without its repetitions: each element stays at the place of
    its first occurrence. *)
Fixpoint first_occurrences {A} `{EqDecision A} (l : list A) : list A :=
  match l with
  | [] => []
  | x :: l' => x :: filter (λ y, y ≠ x) (first_occurrences l')
  end.

(** The keys under which an event id may be wrapped. *)
Definition ID_KEYS : list pystr := [str "#text"; str "value"; str "Value"].

(** An event id under nested single-key wrappers, outermost first. *)
Definition wrap_id (keys : list pystr) (v : pyval) : pyval :=
  foldr (λ k inner, PDict [(k, inner)]) v keys.

(** A filter with other limits. *)
Definition with_limits (l c : Z) (sp : FilterSpec) : FilterSpec :=
  {| lim := l; cap := c; start_dt := start_dt sp; end_dt := end_dt sp;
     contains_lc := contains_lc sp; not_contains_lc := not_contains_lc sp;
     wanted_ids := wanted_ids sp; fields_norm := fields_norm sp |}.

Section FilterNotions.
Context `{Builtins} `{Config}.

(** What the loop yields for an event that passed the filters, if
    anything. *)
Definition emitted (sp : FilterSpec) (ev : pyval) : option pyval :=
  match emit sp ev with
  | Yield v => Some v
  | _ => None
  end.

(** A record passes a filter, as event [ev] at time [event_dt]: its
    payload is non-empty text that parses to [ev]; some include keyword
    occurs in the lowered payload, if there are any; no exclude keyword
    does; the event id is wanted, if any is; the time of the event is
    [event_dt], within the bounds that are set. *)
Definition passes (sp : FilterSpec) (r : raw_record) (ev : pyval)
  (event_dt : Z) : Prop :=
  ∃ payload,
    data r = PStr payload ∧ payload ≠ [] ∧ json_loads payload = Some ev
    ∧ (contains_lc sp = []
       ∨ ∃ k, k ∈ contains_lc sp
              ∧ Str.contains k (str_lower payload) = true)
    ∧ (∀ k, k ∈ not_contains_lc sp →
            Str.contains k (str_lower payload) = false)
    ∧ (wanted_ids sp = ∅
       ∨ ∃ eid_raw n,
           _get_dotted ev (str "Event.System.EventID") = Ok eid_raw
           ∧ _as_event_id recursion_limit eid_raw = Ok (Some n)
           ∧ n ∈ wanted_ids sp)
    ∧ time_of ev r = Ok (Some event_dt)
    ∧ (∀ s, start_dt sp = Some s → s ≤ event_dt)
    ∧ (∀ e, end_dt sp = Some e → event_dt ≤ e).

End FilterNotions.

(** ** evtxio/evtxio.py and mcp/server.py: the callers *)

(** [json.dumps(ev, ensure_ascii=False)], which does not fail on what
    [json.loads] and projection produce. *)
Class Serializer := { json_dumps : pyval → pystr }.

Section Callers.
Context `{Builtins} `{Config} `{Serializer}.

(** [get_events_from_evtx]: the generator run to exhaustion with the
    default [scan_limit], each event serialised. *)
Definition get_events_from_evtx (fs : pystr → fs_entry) (utc_now : utc)
  (provider : pystr)
  (start_ end_ results_limit event_ids contains_ not_contains_ fields_
   : pyval)
  : result (list pystr) :=
  (λ events : list pyval, json_dumps <$> events)
    <$> iter_events_from_evtx fs utc_now provider start_ end_ results_limit
          (PInt SCAN_LIMIT) event_ids contains_ not_contains_ fields_.

(** [_get_events_from_evtx_tool]: an argument that is [None] is left out
    of the call, so that the callee's default stands in for it: [None]
    for all of them but [results_limit], whose default is
    [RESULTS_LIMIT]. *)
Definition _get_events_from_evtx_tool (fs : pystr → fs_entry)
  (utc_now : utc) (provider : pystr)
  (start_ end_ results_limit event_ids contains_ not_contains_ fields_
   : pyval)
  : result (list pystr) :=
  get_events_from_evtx fs utc_now provider start_ end_
    (match results_limit with
     | PNone => PInt RESULTS_LIMIT
     | _ => results_limit
     end)
    event_ids contains_ not_contains_ fields_.

End Callers.

(** An argument passed as a quoted string: layers of quotation marks
    around a string argument; any other value as it is. *)
Definition quote_arg (layers : list (N * N)) (v : pyval) : pyval :=
  match v with
  | PStr s => PStr (wrap_layers layers s)
  | _ => v
  end.

(** A serialiser for closed examples: [json.dumps] with its default
    separators on the values [Reference.loads] produces from integers,
    strings without escapes, arrays and objects. *)
Module ReferenceJson.

Definition quoted (s : pystr) : pystr := 34%N :: s ++ [34%N].

Fixpoint dumps (v : pyval) : pystr :=
  match v with
  | PNone => str "null"
  | PBool true => str "true"
  | PBool false => str "false"
  | PInt n => str (NilZero.string_of_int (Z.to_int n))
  | PFloat _ => str "NaN"
  | PStr s => quoted s
  | PList l =>
      str "["
      ++ (fix items (l : list pyval) : pystr :=
            match l with
            | [] => []
            | [x] => dumps x
            | x :: l' => dumps x ++ str ", " ++ items l'
            end) l
      ++ str "]"
  | PDict kvs =>
      str "{"
      ++ (fix items (kvs : list (pystr * pyval)) : pystr :=
            match kvs with
            | [] => []
            | [(k, x)] => quoted k ++ str ": " ++ dumps x
            | (k, x) :: kvs' =>
                quoted k ++ str ": " ++ dumps x ++ str ", " ++ items kvs'
            end) kvs
      ++ str "}"
  | PDatetime _ => []
  end.

#[export] Instance serializer : Serializer := {| json_dumps := dumps |}.

End ReferenceJson.

(** * Properties *)

(** ** The quote normaliser *)

Lemma lstrip_length s : (length (Str.lstrip s) ≤ length s)%nat.
Proof.
  induction s as [|c s IH]; simpl; [lia|].
  destruct (Str.isspace c); simpl; lia.
Qed.

Lemma strip_length s : (length (Str.strip s) ≤ length s)%nat.
Proof.
  unfold Str.strip, Str.rstrip. rewrite length_reverse.
  etrans; [apply lstrip_length|]. rewrite length_reverse.
  apply lstrip_length.
Qed.

Lemma slice_length s : (length (Str.slice_1_m1 s) ≤ length s - 2)%nat.
Proof. unfold Str.slice_1_m1. rewrite length_take. lia. Qed.

Lemma wrapped_length s : wrapped s = true → (2 ≤ length s)%nat.
Proof.
  unfold wrapped. intros [Hlen _]%andb_prop. by apply Nat.leb_le in Hlen.
Qed.

(** The loop has stopped by itself before [length s] iterations: more fuel
    changes nothing. *)
Lemma unwrap_loop_enough n m s :
  (length s ≤ n)%nat → (length s ≤ m)%nat →
  unwrap_loop n s = unwrap_loop m s.
Proof.
  revert m s. induction n as [|n IH]; intros m s Hn Hm.
  - destruct s; [|simpl in Hn; lia]. destruct m; reflexivity.
  - destruct m as [|m].
    + destruct s; [|simpl in Hm; lia]. reflexivity.
    + simpl. destruct (wrapped s) eqn:Hw; [|done].
      apply wrapped_length in Hw.
      pose proof (strip_length (Str.slice_1_m1 s)).
      pose proof (slice_length s).
      apply IH; lia.
Qed.

(** The function as its own recursion equation: trim, then either peel one
    pair and start over, or stop. *)
Lemma normalize_wrapping_quotes_unfold s :
  normalize_wrapping_quotes s =
    if wrapped (Str.strip s)
    then normalize_wrapping_quotes (Str.slice_1_m1 (Str.strip s))
    else Str.strip s.
Proof.
  unfold normalize_wrapping_quotes at 1. cbv zeta.
  destruct (wrapped (Str.strip s)) eqn:Hw.
  - pose proof (wrapped_length _ Hw) as Hlen.
    destruct (length (Str.strip s)) as [|n] eqn:Hn; [lia|].
    simpl. rewrite Hw. unfold normalize_wrapping_quotes. cbv zeta.
    apply unwrap_loop_enough; [|done].
    pose proof (strip_length (Str.slice_1_m1 (Str.strip s))).
    pose proof (slice_length (Str.strip s)). lia.
  - destruct (length (Str.strip s)); simpl; [done|]. by rewrite Hw.
Qed.

Lemma strip_between a mid b :
  Str.isspace a = false → Str.isspace b = false →
  Str.strip (a :: mid ++ [b]) = a :: mid ++ [b].
Proof.
  intros Ha Hb. unfold Str.strip, Str.rstrip. simpl. rewrite Ha.
  rewrite reverse_cons, reverse_app. simpl. rewrite Hb.
  rewrite reverse_cons, reverse_app, !reverse_involutive.
  by rewrite reverse_cons, reverse_nil.
Qed.

Lemma quote_pair_closer q :
  q ∈ _QUOTE_PAIRS →
  quote_closer (fst q) = Some (snd q)
  ∧ Str.isspace (fst q) = false ∧ Str.isspace (snd q) = false.
Proof.
  unfold _QUOTE_PAIRS. rewrite !elem_of_cons, elem_of_nil.
  intros Hq. destruct_or!; subst; try done; vm_compute; done.
Qed.

Lemma slice_between a mid b : Str.slice_1_m1 (a :: mid ++ [b]) = mid.
Proof.
  unfold Str.slice_1_m1. simpl. rewrite length_app. simpl.
  rewrite drop_0. replace (length mid + 1 - 1)%nat with (length mid) by lia.
  by rewrite take_app_length.
Qed.

Lemma wrapped_between q mid :
  q ∈ _QUOTE_PAIRS → wrapped (fst q :: mid ++ [snd q]) = true.
Proof.
  intros (Hc & _ & _)%quote_pair_closer. unfold wrapped.
  rewrite length_cons, length_app. simpl length.
  replace (2 <=? S (length mid + 1))%nat with true
    by (symmetry; apply Nat.leb_le; lia).
  rewrite last_cons, last_snoc. cbn [head]. rewrite Hc. simpl.
  apply N.eqb_refl.
Qed.

Lemma unwrap_one_layer q inner :
  q ∈ _QUOTE_PAIRS →
  normalize_wrapping_quotes (fst q :: inner ++ [snd q])
  = normalize_wrapping_quotes inner.
Proof.
  intros Hq. rewrite normalize_wrapping_quotes_unfold.
  destruct (quote_pair_closer q Hq) as (_ & Ha & Hb).
  rewrite strip_between by done.
  by rewrite wrapped_between, slice_between.
Qed.

(** Peeling any stack of layers leaves the normal form of the core. *)
Lemma unwrap_layers layers core :
  Forall (λ q, q ∈ _QUOTE_PAIRS) layers →
  normalize_wrapping_quotes (wrap_layers layers core)
  = normalize_wrapping_quotes core.
Proof.
  induction 1 as [|q layers Hq _ IH]; [done|].
  simpl. by rewrite unwrap_one_layer.
Qed.

(** C9, as stated, fails: a string with no wrapping pair at its ends is
    still trimmed.  " a" is not wrapped, and comes back as "a". *)
Lemma quotes_unwrapped_is_trimmed :
  wrapped (str " a") = false
  ∧ normalize_wrapping_quotes (str " a") = str "a"
  ∧ normalize_wrapping_quotes (str " a") ≠ str " a".
Proof. split_and!; [reflexivity|reflexivity|discriminate]. Qed.

(** C9, amended: a string without surrounding whitespace and without a
    wrapping pair at its ends is returned unchanged; and under any stack of
    nested pairs, of any mix of kinds, a string normalises to what it
    normalises to without them: every layer is removed, and a bare core
    comes back as it is. *)
Theorem quotes_bare_noop_and_layers_unwrap (s : pystr)
  (layers : list (N * N)) :
  Forall (λ q, q ∈ _QUOTE_PAIRS) layers →
  normalize_wrapping_quotes (wrap_layers layers s)
  = normalize_wrapping_quotes s
  ∧ (Str.strip s = s → wrapped s = false →
     normalize_wrapping_quotes s = s
     ∧ normalize_wrapping_quotes (wrap_layers layers s) = s).
Proof.
  intros Hl. split; [by apply unwrap_layers|]. intros Hs Hw.
  assert (normalize_wrapping_quotes s = s) as Hbare.
  { by rewrite normalize_wrapping_quotes_unfold, Hs, Hw. }
  split; [done|]. by rewrite unwrap_layers.
Qed.

Lemma quotes_bare_noop_and_layers_unwrap_witness :
  normalize_wrapping_quotes (str "ping.exe") = str "ping.exe"
  ∧ normalize_wrapping_quotes
      (wrap_layers [(96, 96); (8220, 8221); (39, 39)]%N (str "ping.exe"))
    = str "ping.exe".
Proof.
  apply (quotes_bare_noop_and_layers_unwrap (str "ping.exe")
           [(96, 96); (8220, 8221); (39, 39)]%N).
  - repeat constructor.
  - reflexivity.
  - reflexivity.
Defined.

(** ** The limits *)

Section Limits.
Context `{Builtins} `{Config}.

(** C8 at the failing input: [True] passes the [isinstance(value, int)]
    test and comes back as the integer it is, 1; only [False] is
    rejected, as the non-positive integer 0. *)
Theorem normalize_int_accepts_true (default : Z) :
  normalize_int (PBool true) default = Some 1
  ∧ normalize_int (PBool false) default = None.
Proof. split; reflexivity. Qed.

(** What makes the normaliser answer [None]: a non-positive integer, a
    string that [int] rejects or that denotes a non-positive integer, and
    any value that is neither. *)
Lemma normalize_int_None value default :
  normalize_int value default = None ↔
    match value with
    | PNone => False
    | PBool b => b = false
    | PInt n => n ≤ 0
    | PStr v =>
        match py_int (Str.strip (normalize_wrapping_quotes v)) with
        | Some i => i ≤ 0
        | None => True
        end
    | _ => True
    end.
Proof.
  destruct value as [|[]|n|?|v|?|?|?]; simpl; try done.
  - destruct (Z.ltb_spec 0 n); split; (done || lia).
  - destruct (py_int _) as [i|]; [|done].
    destruct (Z.ltb_spec 0 i); split; (done || lia).
Qed.

Lemma normalize_int_positive value default n :
  0 < default → normalize_int value default = Some n → 0 < n.
Proof.
  intros Hd. destruct value as [|[]|m|?|v|?|?|?]; simpl; try done.
  - by intros [= <-].
  - by intros [= <-].
  - destruct (Z.ltb_spec 0 m); [|done]. by intros [= <-].
  - destruct (py_int _) as [i|]; [|done].
    destruct (Z.ltb_spec 0 i); [|done]. by intros [= <-].
Qed.

(** [prepare] hands the limits through untouched. *)
Lemma prepare_limits utc_now l c start_ end_ ids inc exc flds sp :
  prepare utc_now l c start_ end_ ids inc exc flds = Ok sp →
  lim sp = l ∧ cap sp = c.
Proof.
  unfold prepare. intros Hp.
  destruct (normalize_bound utc_now start_); [|done].
  destruct (normalize_bound utc_now end_); [|done].
  simpl in Hp. destruct (swap_if_reversed _ _).
  destruct (normalize_str_list inc true); [|done].
  destruct (normalize_str_list exc true); [|done].
  simpl in Hp. destruct (remove_overlaps _ _).
  destruct (normalize_int_list ids); [|done].
  simpl in Hp.
  destruct (match flds with PNone => _ | _ => _ end); [|done].
  simpl in Hp. by simplify_eq.
Qed.

(** C7: a limit that normalises to [None] makes the call return empty,
    without an exception, whatever the other arguments and the file are;
    and when both limits normalise, to [l] and [c], the loop runs under
    [min l RESULTS_LIMIT] and [min c SCAN_LIMIT]. *)
Theorem invalid_limit_returns_empty (fs : pystr → fs_entry) (utc_now : Z)
  (evtx_path : pystr)
  (start_ end_ results_limit scan_limit ids inc exc flds : pyval) :
  (normalize_int results_limit RESULTS_LIMIT = None
   ∨ normalize_int scan_limit SCAN_LIMIT = None →
   iter_events_from_evtx fs utc_now evtx_path start_ end_ results_limit
     scan_limit ids inc exc flds = Ok [])
  ∧ (∀ l c,
       normalize_int results_limit RESULTS_LIMIT = Some l →
       normalize_int scan_limit SCAN_LIMIT = Some c →
       fs (normalize_wrapping_quotes evtx_path) ≠ NotAFile →
       iter_events_trace fs utc_now evtx_path start_ end_ results_limit
         scan_limit ids inc exc flds
       = (sp ← prepare utc_now (Z.min l RESULTS_LIMIT) (Z.min c SCAN_LIMIT)
                 start_ end_ ids inc exc flds;
          records ← open_parser (fs (normalize_wrapping_quotes evtx_path));
          Ok (records_loop sp records zero))
       ∧ ∀ sp, prepare utc_now (Z.min l RESULTS_LIMIT)
                 (Z.min c SCAN_LIMIT) start_ end_ ids inc exc flds = Ok sp →
               lim sp = Z.min l RESULTS_LIMIT
               ∧ cap sp = Z.min c SCAN_LIMIT).
Proof.
  split.
  - intros Hnone. unfold iter_events_from_evtx, iter_events_trace.
    destruct (fs _); [done| |].
    all: destruct (normalize_int results_limit RESULTS_LIMIT); [|done].
    all: destruct (normalize_int scan_limit SCAN_LIMIT); [|done].
    all: by destruct Hnone.
  - intros l c Hl Hc Hfile. split.
    + unfold iter_events_trace. rewrite Hl, Hc.
      by destruct (fs _).
    + intros sp. apply prepare_limits.
Qed.

End Limits.

(** ** The loop *)

Section Loop.
Context `{Builtins}.

Ltac refold_fmap :=
  repeat match goal with
         | |- context [list_fmap ?A ?B ?f ?l] =>
             change (list_fmap A B f l) with (f <$> l)
         end.

(** What the generator yields, from any state of the counters: the yields
    of the records still within the scan budget, cut at the result
    budget. *)
Lemma records_loop_out sp records st :
  (records_loop sp records st).1 =
    take (Z.to_nat (lim sp - returned st))
      (yields (classify sp <$> take (Z.to_nat (cap sp - scanned st)) records)).
Proof.
  revert st. induction records as [|p records IH]; intros st.
  - simpl. rewrite take_nil. simpl. by rewrite take_nil.
  - destruct p as [r|]; simpl.
    + destruct (Z.leb_spec (cap sp) (scanned st)) as [Hc|Hc].
      { replace (Z.to_nat (cap sp - scanned st)) with 0%nat by lia.
        simpl. by rewrite take_nil. }
      destruct (Z.leb_spec (lim sp) (returned st)) as [Hl|Hl].
      { replace (Z.to_nat (lim sp - returned st)) with 0%nat by lia.
        by rewrite take_0. }
      replace (Z.to_nat (cap sp - scanned st))
        with (S (Z.to_nat (cap sp - (scanned st + 1)))) by lia.
      simpl. destruct (process_record sp r) as [|v|].
      * by rewrite IH.
      * match goal with
        | |- context [records_loop sp records ?s] =>
            specialize (IH s);
            destruct (records_loop sp records s) as [vs st']
        end.
        simpl in *. rewrite IH.
        by replace (Z.to_nat (lim sp - returned st))
          with (S (Z.to_nat (lim sp - (returned st + 1)))) by lia.
      * simpl. by rewrite take_nil.
    + destruct (Z.to_nat (cap sp - scanned st)); simpl; by rewrite ?take_nil.
Qed.

(** The run of the loop, record by record: [n] records are examined; the
    output is everything they yield; before each of them both budgets were
    open; and the loop ends on a budget, on the end of the source, on a
    decoder failure, or on an exception in the body. *)
Lemma records_loop_run sp records st out st' :
  records_loop sp records st = (out, st') →
  ∃ n : nat,
    scanned st' = scanned st + Z.of_nat n
    ∧ returned st' = returned st + Z.of_nat (length out)
    ∧ (n ≤ length records)%nat
    ∧ out = yields (classify sp <$> take n records)
    ∧ (∀ k, (k < n)%nat →
         scanned st + Z.of_nat k < cap sp
         ∧ returned st
           + Z.of_nat (length (yields (classify sp <$> take k records)))
           < lim sp)
    ∧ (cap sp ≤ scanned st' ∨ lim sp ≤ returned st'
       ∨ records !! n = None ∨ records !! n = Some DecoderError
       ∨ ∃ m r, n = S m ∧ records !! m = Some (Rec r)
                ∧ process_record sp r = Abort).
Proof.
  revert st out st'.
  induction records as [|p records IH]; intros st out st' Hrun.
  { simpl in Hrun. simplify_eq. exists 0%nat. simpl.
    split_and!; try lia; auto; intros; lia. }
  destruct p as [r|]; simpl in Hrun; cycle 1.
  { simplify_eq. exists 0%nat. simpl.
    split_and!; try lia; auto; intros; lia. }
  destruct (Z.leb_spec (cap sp) (scanned st)) as [Hc|Hc].
  { simplify_eq. exists 0%nat. simpl.
    split_and!; try lia; auto; intros; lia. }
  destruct (Z.leb_spec (lim sp) (returned st)) as [Hl|Hl].
  { simplify_eq. exists 0%nat. simpl.
    split_and!; try lia; auto; intros; lia. }
  destruct (process_record sp r) as [|v|] eqn:Hstep.
  - apply IH in Hrun as (n & Hs & Hr & Hn & Hout & Hk & Hstop). simpl in *.
    exists (S n). simpl. rewrite Hstep.
    split_and!; [lia|lia|lia|done| |].
    + intros [|k] Hlt; simpl; [lia|]. rewrite Hstep. refold_fmap.
      destruct (Hk k) as [? ?]; lia.
    + destruct Hstop as [?|[?|[?|[?|(m & r' & -> & ? & ?)]]]]; eauto 10;
        do 4 right; by exists (S m), r'.
  - destruct (records_loop sp records _) as [vs st1] eqn:Hrec.
    simplify_eq.
    apply IH in Hrec as (n & Hs & Hr & Hn & Hout & Hk & Hstop). simpl in *.
    exists (S n). simpl. rewrite Hstep.
    split_and!; [lia|lia|lia|by f_equal| |].
    + intros [|k] Hlt; simpl; [lia|]. rewrite Hstep. simpl. refold_fmap.
      destruct (Hk k) as [? ?]; lia.
    + destruct Hstop as [?|[?|[?|[?|(m & r' & -> & ? & ?)]]]]; eauto 10;
        do 4 right; by exists (S m), r'.
  - simplify_eq. exists 1%nat. simpl. rewrite Hstep.
    split_and!; [lia|lia|lia|done| |].
    + intros k Hlt. assert (k = 0%nat) as -> by lia. simpl. lia.
    + do 4 right. exists 0%nat, r. done.
Qed.

(** C2: under a filter whose limits are [lim] and [cap], the loop examines
    at most [cap] records and yields at most [lim] results.  It examines a
    record only while both budgets are open (the two tests come first in
    the body, before [scanned] is incremented), so it stops at the first
    record that finds a budget spent; everything the examined records
    yield is output; and short of a spent budget it stops only when the
    source ends or fails, or the body raises. *)
Theorem scan_and_result_limits_bound_the_loop (sp : FilterSpec)
  (records : list pulled) (out : list pyval) (st' : counters) :
  0 ≤ lim sp → 0 ≤ cap sp →
  records_loop sp records zero = (out, st') →
  let n := Z.to_nat (scanned st') in
  scanned st' ≤ cap sp
  ∧ Z.of_nat (length out) ≤ lim sp
  ∧ returned st' = Z.of_nat (length out)
  ∧ (n ≤ length records)%nat
  ∧ out = yields (classify sp <$> take n records)
  ∧ (∀ k, (k < n)%nat →
       Z.of_nat k < cap sp
       ∧ Z.of_nat (length (yields (classify sp <$> take k records)))
         < lim sp)
  ∧ (scanned st' = cap sp ∨ returned st' = lim sp
     ∨ records !! n = None ∨ records !! n = Some DecoderError
     ∨ ∃ m r, n = S m ∧ records !! m = Some (Rec r)
              ∧ process_record sp r = Abort).
Proof.
  intros Hlim Hcap Hrun n.
  pose proof (records_loop_out sp records zero) as Hout.
  rewrite Hrun in Hout. simpl in Hout.
  destruct (records_loop_run _ _ _ _ _ Hrun)
    as (m & Hs & Hr & Hm & Hys & Hk & Hstop).
  simpl in Hs, Hr, Hk.
  assert (n = m) as -> by (unfold n; lia).
  assert (scanned st' ≤ cap sp) as Hsc.
  { destruct m as [|m]; [lia|]. destruct (Hk m); lia. }
  assert (Z.of_nat (length out) ≤ lim sp) as Hlen.
  { rewrite Hout, length_take. lia. }
  split_and!; [done|done|lia|done|done| |].
  - intros k Hlt. destruct (Hk k Hlt). split; lia.
  - destruct Hstop as [?|[?|?]]; [left; lia|right; left; lia|].
    by do 2 right.
Qed.

(** A decoder failure ends the loop where it occurs: what follows it is
    never looked at. *)
Lemma records_loop_decoder_error sp prefix rest st :
  records_loop sp (prefix ++ DecoderError :: rest) st
  = records_loop sp prefix st.
Proof.
  revert st. induction prefix as [|p prefix IH]; intros st; [done|].
  destruct p as [r|]; simpl; [|done].
  destruct (cap sp <=? scanned st); [done|].
  destruct (lim sp <=? returned st); [done|].
  destruct (process_record sp r); [by rewrite IH| |done].
  by rewrite IH.
Qed.

End Loop.

(** ** The filter *)

Section Filter.
Context `{Builtins} `{Config}.

(** *** Paths that cannot raise *)

Lemma walk_path_safe cur parts :
  Forall (λ part, isdigit part = true → is_Some (py_int part)) parts →
  ∃ v, walk_path cur parts = Ok v.
Proof.
  intros Hsafe. revert cur.
  induction Hsafe as [|part parts Hpart _ IH]; intros cur; [by eexists|].
  destruct cur as [| | | | |l|kvs|]; simpl; try by eexists.
  - destruct (isdigit part); [|by eexists].
    destruct Hpart as [idx ->]; [done|].
    destruct (_ && _); [|by eexists].
    destruct (l !! Z.to_nat idx); [apply IH|by eexists].
  - destruct (dict_get kvs part); [apply IH|by eexists].
Qed.

Lemma get_dotted_safe obj f : int_safe f → ∃ v, _get_dotted obj f = Ok v.
Proof. apply walk_path_safe. Qed.

(** A path without a numeric segment never reaches [int()]. *)
Lemma int_safe_no_digits f :
  forallb (λ part, negb (isdigit part)) (Str.split 46 f) = true →
  int_safe f.
Proof.
  unfold int_safe. intros Hall. apply Forall_forall. intros part Hin.
  rewrite forallb_forall in Hall.
  apply list_elem_of_In, Hall, negb_true_iff in Hin. by rewrite Hin.
Qed.

(** The two paths the loop resolves have no numeric segment. *)
Lemma event_id_path_safe : int_safe (str "Event.System.EventID").
Proof. apply int_safe_no_digits. vm_compute. reflexivity. Qed.

Lemma system_time_path_safe :
  int_safe (str "Event.System.TimeCreated.#attributes.SystemTime").
Proof. apply int_safe_no_digits. vm_compute. reflexivity. Qed.

(** *** A call without constraints *)

Lemma prepare_unconstrained utc_now l c :
  prepare utc_now l c PNone PNone PNone PNone PNone PNone
  = Ok (unconstrained l c).
Proof. reflexivity. Qed.

Lemma reads_cleanlyb_sound p : reads_cleanlyb p = true → reads_cleanly p.
Proof.
  destruct p as [r|]; [|done]. unfold reads_cleanlyb, reads_cleanly.
  intros Hcheck ev Hev. rewrite Hev in Hcheck.
  apply andb_true_iff in Hcheck as [Hid Htime]. split.
  - intros eid_raw Heid. rewrite Heid in Hid.
    by destruct (_as_event_id recursion_limit eid_raw).
  - by destruct (time_of ev r).
Qed.

Lemma result_bind_ok {A B} (a : A) (f : A → result B) : (Ok a ≫= f) = f a.
Proof. reflexivity. Qed.

Lemma event_id_ok_unconstrained l c eid :
  event_id_ok (unconstrained l c) eid = true.
Proof. unfold event_id_ok. simpl. by rewrite bool_decide_true. Qed.

Lemma keywords_ok_unconstrained l c lower :
  keywords_ok (unconstrained l c) lower = true.
Proof. reflexivity. Qed.

Lemma emit_unconstrained l c ev : emit (unconstrained l c) ev = Yield ev.
Proof. reflexivity. Qed.

Lemma classify_unconstrained l c p :
  reads_cleanly p → classify (unconstrained l c) p = plain_step p.
Proof.
  destruct p as [[d t]|]; [|done]. intros Hclean.
  unfold reads_cleanly in Hclean.
  unfold classify, plain_step, process_record.
  destruct (event_of _) as [ev|] eqn:Hev.
  - destruct (Hclean ev eq_refl) as [Hid Htime].
    unfold event_of in Hev. cbn [data] in *.
    destruct d as [| | | |s| | |]; try done.
    destruct (Str.nonempty s); [|done].
    rewrite keywords_ok_unconstrained, Hev. cbn [negb].
    destruct (get_dotted_safe ev _ event_id_path_safe) as [eid_raw Heid].
    rewrite Heid. specialize (Hid eid_raw Heid).
    destruct (_as_event_id recursion_limit eid_raw) as [eid|]; [|done].
    rewrite event_id_ok_unconstrained. cbn [negb].
    destruct (get_dotted_safe ev _ system_time_path_safe) as [ts Hts].
    assert (time_of ev {| data := PStr s; timestamp := t |}
            = event_time ts {| data := PStr s; timestamp := t |}) as Htime'
      by (unfold time_of; by rewrite Hts).
    rewrite Htime' in Htime.
    unfold time_of. rewrite Hts, result_bind_ok.
    destruct (event_time ts _) as [[dt|]|]; [|reflexivity|done].
    apply emit_unconstrained.
  - unfold event_of in Hev. cbn [data] in *.
    destruct d as [| | | |s| | |]; try done.
    destruct (Str.nonempty s); [|done].
    by rewrite keywords_ok_unconstrained, Hev.
Qed.
Lemma yields_plain_sublist records n :
  yields (plain_step <$> take n records)
    `sublist_of` omap parseable_event records.
Proof.
  revert n. induction records as [|p records IH]; intros n.
  { rewrite take_nil. constructor. }
  destruct n as [|n]; [apply sublist_nil_l|].
  simpl. destruct p as [r|]; simpl.
  - destruct (event_of r) as [ev|]; [|apply IH].
    destruct (time_of ev r) as [[dt|]|].
    + apply sublist_skip, IH.
    + apply sublist_cons, IH.
    + apply sublist_cons, IH.
  - apply sublist_nil_l.
Qed.

(** C1, amended: without constraints, and as long as reading the event id
    and the time of the records raises nothing, the output is, in arrival
    order, the events of the records that are parseable and whose time
    can be determined, among the first [cap] records pulled and before
    the first decoder failure, cut at [lim] entries; it is a subsequence
    of the events of the parseable records, so nothing is reordered or
    duplicated. *)
Theorem unconstrained_output (fs : pystr → fs_entry) (utc_now : Z)
  (evtx_path : pystr) (results_limit scan_limit : pyval)
  (records : list pulled) (l c : Z) :
  fs (normalize_wrapping_quotes evtx_path) = Evtx records →
  normalize_int results_limit RESULTS_LIMIT = Some l →
  normalize_int scan_limit SCAN_LIMIT = Some c →
  Forall reads_cleanly (take (Z.to_nat (Z.min c SCAN_LIMIT)) records) →
  let lim_ := Z.min l RESULTS_LIMIT in
  let cap_ := Z.min c SCAN_LIMIT in
  let output :=
    take (Z.to_nat lim_)
      (yields (plain_step <$> take (Z.to_nat cap_) records)) in
  iter_events_from_evtx fs utc_now evtx_path PNone PNone results_limit
    scan_limit PNone PNone PNone PNone = Ok output
  ∧ output `sublist_of` omap parseable_event records.
Proof.
  intros Hfs Hl Hc Hclean lim_ cap_ output. split.
  - unfold iter_events_from_evtx, iter_events_trace.
    rewrite Hfs, Hl, Hc, prepare_unconstrained. simpl.
    f_equal. rewrite records_loop_out. simpl.
    rewrite !Z.sub_0_r. unfold output. f_equal. f_equal.
    apply Forall_fmap_ext_1.
    eapply Forall_impl; [exact Hclean|].
    intros p Hp. by apply classify_unconstrained.
  - unfold output. etrans; [apply sublist_take|].
    apply yields_plain_sublist.
Qed.

(** *** A decoder failure *)

Lemma prepare_raises_whatever_limits utc_now l c l' c' start_ end_ ids inc
  exc flds :
  prepare utc_now l c start_ end_ ids inc exc flds = Raise →
  prepare utc_now l' c' start_ end_ ids inc exc flds = Raise.
Proof.
  unfold prepare.
  destruct (normalize_bound utc_now start_); [|done].
  destruct (normalize_bound utc_now end_); [|done].
  simpl. destruct (swap_if_reversed _ _).
  destruct (normalize_str_list inc true); [|done].
  destruct (normalize_str_list exc true); [|done].
  simpl. destruct (remove_overlaps _ _).
  destruct (normalize_int_list ids); [|done].
  simpl. destruct (match flds with PNone => _ | _ => _ end); done.
Qed.

(** C6: when the decoder raises after a prefix of pulls, the call ends as
    it would have on that prefix alone, same output and same counters.  The
    failure itself never reaches the caller: an exception can only come
    from normalising the arguments, before the decoder is iterated. *)
Theorem decoder_failure_truncates_silently (fs fs' : pystr → fs_entry)
  (utc_now : Z) (evtx_path : pystr)
  (start_ end_ results_limit scan_limit ids inc exc flds : pyval)
  (prefix rest : list pulled) :
  fs (normalize_wrapping_quotes evtx_path)
    = Evtx (prefix ++ DecoderError :: rest) →
  fs' (normalize_wrapping_quotes evtx_path) = Evtx prefix →
  iter_events_trace fs utc_now evtx_path start_ end_ results_limit
    scan_limit ids inc exc flds
  = iter_events_trace fs' utc_now evtx_path start_ end_ results_limit
      scan_limit ids inc exc flds
  ∧ iter_events_from_evtx fs utc_now evtx_path start_ end_ results_limit
      scan_limit ids inc exc flds
    = iter_events_from_evtx fs' utc_now evtx_path start_ end_ results_limit
        scan_limit ids inc exc flds
  ∧ (iter_events_from_evtx fs utc_now evtx_path start_ end_ results_limit
       scan_limit ids inc exc flds = Raise →
     ∀ l c, prepare utc_now l c start_ end_ ids inc exc flds = Raise).
Proof.
  intros Hfs Hfs'.
  assert (iter_events_trace fs utc_now evtx_path start_ end_ results_limit
            scan_limit ids inc exc flds
          = iter_events_trace fs' utc_now evtx_path start_ end_
              results_limit scan_limit ids inc exc flds) as Heq.
  { unfold iter_events_trace. rewrite Hfs, Hfs'.
    destruct (normalize_int results_limit _); [|done].
    destruct (normalize_int scan_limit _); [|done].
    destruct (prepare _ _ _ _ _ _ _ _ _); [|done].
    simpl. by rewrite records_loop_decoder_error. }
  split_and!; [done|unfold iter_events_from_evtx; by rewrite Heq|].
  unfold iter_events_from_evtx, iter_events_trace. rewrite Hfs.
  destruct (normalize_int results_limit _) as [l|]; [|done].
  destruct (normalize_int scan_limit _) as [c|]; [|done].
  destruct (prepare _ _ _ _ _ _ _ _ _) eqn:Hp; [done|].
  intros _ l' c'. by eapply prepare_raises_whatever_limits.
Qed.

Lemma normalize_int_nonneg value default n :
  0 ≤ default → normalize_int value default = Some n → 0 ≤ n.
Proof.
  intros Hd. destruct value as [|[]|m| |v| | |]; simpl; try done.
  - intros [= <-]. lia.
  - intros [= <-]. lia.
  - destruct (Z.ltb_spec 0 m); [|done]. intros [= <-]. lia.
  - destruct (py_int _) as [i|]; [|done].
    destruct (Z.ltb_spec 0 i); [|done]. intros [= <-]. lia.
Qed.

(** A whole call, whatever its arguments: when it returns, it has examined
    at most [SCAN_LIMIT] records and yielded at most [RESULTS_LIMIT]
    results, and no more than the limits asked for. *)
Lemma call_respects_limits fs utc_now evtx_path start_ end_ results_limit
  scan_limit ids inc exc flds output st :
  0 ≤ RESULTS_LIMIT → 0 ≤ SCAN_LIMIT →
  iter_events_trace fs utc_now evtx_path start_ end_ results_limit
    scan_limit ids inc exc flds = Ok (output, st) →
  Z.of_nat (length output) ≤ RESULTS_LIMIT
  ∧ scanned st ≤ SCAN_LIMIT
  ∧ (∀ l, normalize_int results_limit RESULTS_LIMIT = Some l →
          Z.of_nat (length output) ≤ l)
  ∧ (∀ c, normalize_int scan_limit SCAN_LIMIT = Some c → scanned st ≤ c).
Proof.
  intros HR HS Hcall.
  assert (output = [] ∧ st = zero
          ∨ ∃ l c sp records,
              normalize_int results_limit RESULTS_LIMIT = Some l
              ∧ normalize_int scan_limit SCAN_LIMIT = Some c
              ∧ lim sp = Z.min l RESULTS_LIMIT
              ∧ cap sp = Z.min c SCAN_LIMIT
              ∧ records_loop sp records zero = (output, st))
    as [[-> ->]|(l & c & sp & records & Hl & Hc & Hlim & Hcap & Hrun)].
  { unfold iter_events_trace in Hcall.
    destruct (fs _); [left; by simplify_eq| |].
    all: destruct (normalize_int results_limit _) as [l|];
      [|left; by simplify_eq].
    all: destruct (normalize_int scan_limit _) as [c|];
      [|left; by simplify_eq].
    all: destruct (prepare _ _ _ _ _ _ _ _ _) as [sp|] eqn:Hp; [|done].
    all: apply prepare_limits in Hp as [Hlim Hcap]; simpl in Hcall;
      try done.
    right. exists l, c, sp, records. by simplify_eq. }
  - simpl. split_and!; [lia|lia| |].
    + intros l Hl. apply normalize_int_nonneg in Hl; lia.
    + intros c Hc. apply normalize_int_nonneg in Hc; lia.
  - pose proof (normalize_int_nonneg _ _ _ HR Hl).
    pose proof (normalize_int_nonneg _ _ _ HS Hc).
    pose proof (records_loop_out sp records zero) as Hout.
    rewrite Hrun in Hout. simpl in Hout.
    destruct (records_loop_run _ _ _ _ _ Hrun)
      as (n & Hs & _ & _ & _ & Hk & _). simpl in Hs, Hk.
    assert (Z.of_nat (length output) ≤ lim sp)
      by (rewrite Hout, length_take; lia).
    assert (scanned st ≤ cap sp).
    { destruct n as [|n]; [lia|]. destruct (Hk n); lia. }
    split_and!; try lia; intros ? ?; simplify_eq; lia.
Qed.

End Filter.

(** ** The loop body *)

Section LoopBody.
Context `{Builtins} `{Config}.

Lemma and_iff_both (A B C D : Prop) :
  (A ↔ C) → (B ↔ D) → (A ∧ B ↔ C ∧ D).
Proof. tauto. Qed.

Lemma existsb_elem_of {A} (f : A → bool) (l : list A) :
  existsb f l = true ↔ ∃ x, x ∈ l ∧ f x = true.
Proof.
  rewrite existsb_exists. split; intros (x & Hx & Hf); exists x; split;
    try done; by apply list_elem_of_In.
Qed.

Lemma keywords_ok_spec sp lower :
  keywords_ok sp lower = true
  ↔ (contains_lc sp = []
     ∨ ∃ k, k ∈ contains_lc sp ∧ Str.contains k lower = true)
    ∧ (∀ k, k ∈ not_contains_lc sp → Str.contains k lower = false).
Proof.
  unfold keywords_ok.
  rewrite andb_true_iff, !negb_true_iff, !andb_false_iff, negb_false_iff.
  rewrite existsb_elem_of.
  apply and_iff_both.
  - split; (intros [Hnil|Hk]; [left|by right]).
    + by destruct (contains_lc sp).
    + by rewrite Hnil.
  - split.
    + intros [Hnil|Hno] k Hk.
      * destruct (not_contains_lc sp); [by inversion Hk|done].
      * destruct (Str.contains k lower) eqn:Hsub; [|done].
        assert (existsb (λ k, Str.contains k lower) (not_contains_lc sp)
                = true) by (apply existsb_elem_of; eauto).
        congruence.
    + intros Hall. right.
      destruct (existsb _ _) eqn:Hex; [|done].
      apply existsb_elem_of in Hex as (k & Hk & Hsub).
      rewrite (Hall k Hk) in Hsub. done.
Qed.

Lemma event_id_ok_spec sp eid :
  event_id_ok sp eid = true
  ↔ wanted_ids sp = ∅ ∨ ∃ n, eid = Some n ∧ n ∈ wanted_ids sp.
Proof.
  unfold event_id_ok.
  rewrite negb_true_iff, andb_false_iff, negb_false_iff, bool_decide_eq_true.
  apply or_iff_compat_l.
  destruct eid as [n|].
  - rewrite negb_false_iff, bool_decide_eq_true. split.
    + intros Hn. by exists n.
    + by intros (? & [= <-] & ?).
  - split; [done|by intros (? & ? & ?)].
Qed.

Lemma time_ok_spec lo hi dt :
  time_ok lo hi dt = true
  ↔ (∀ s, lo = Some s → s ≤ dt) ∧ (∀ e, hi = Some e → dt ≤ e).
Proof.
  unfold time_ok. rewrite andb_true_iff, !negb_true_iff.
  apply and_iff_both.
  - destruct lo as [s|]; [|by split].
    rewrite Z.ltb_ge. split; [by intros ? ? [= <-]|by intros Hs; apply Hs].
  - destruct hi as [e|]; [|by split].
    rewrite Z.gtb_ltb, Z.ltb_ge.
    split; [by intros ? ? [= <-]|by intros He; apply He].
Qed.

(** When the loop body yields, and what: the record passes the filter,
    and the value is what [emit] makes of its event. *)
Lemma process_record_yields sp r v :
  process_record sp r = Yield v →
  ∃ ev event_dt, passes sp r ev event_dt ∧ emit sp ev = Yield v.
Proof.
  unfold process_record, passes, time_of.
  destruct (data r) as [| | | |payload| | |]; try done.
  destruct (Str.nonempty payload) eqn:Hne; [|done].
  destruct (keywords_ok sp _) eqn:Hkw; [|done].
  destruct (json_loads payload) as [ev|] eqn:Hev; [|done].
  destruct (_get_dotted ev (str "Event.System.EventID"))
    as [eid_raw|] eqn:Heid; [|done].
  destruct (_as_event_id recursion_limit eid_raw) as [eid|] eqn:Hraw;
    [|done].
  destruct (event_id_ok sp eid) eqn:Hid; [|done].
  destruct (_ ≫= _) as [[dt|]|] eqn:Htime; try done.
  destruct (time_ok _ _ dt) eqn:Hok; [|done].
  cbn [negb]. intros Hemit. exists ev, dt. split; [|done].
  apply keywords_ok_spec in Hkw as [Hinc Hexc].
  apply event_id_ok_spec in Hid.
  apply time_ok_spec in Hok as [Hlo Hhi].
  exists payload. split_and!; try done.
  - by destruct payload.
  - destruct Hid as [Hw|(n & -> & Hin)]; [by left|right].
    by exists eid_raw, n.
Qed.

(** A record that passes is yielded, unless reading its event id
    raises. *)
Lemma process_record_passes sp r ev event_dt v :
  passes sp r ev event_dt → emit sp ev = Yield v →
  process_record sp r = Yield v ∨ process_record sp r = Abort.
Proof.
  unfold process_record, passes, time_of.
  intros (payload & -> & Hne & Hev & Hinc & Hexc & Hid & Htime
          & Hlo & Hhi) Hemit.
  assert (Str.nonempty payload = true) as -> by (by destruct payload).
  assert (keywords_ok sp (str_lower payload) = true) as ->
    by (by apply keywords_ok_spec).
  cbn [negb]. rewrite Hev.
  destruct (get_dotted_safe ev _ event_id_path_safe) as [eid_raw Heid].
  rewrite Heid.
  destruct (_as_event_id recursion_limit eid_raw) as [eid|] eqn:Hraw;
    [|by right].
  assert (event_id_ok sp eid = true) as ->.
  { apply event_id_ok_spec.
    destruct Hid as [Hw|(raw & n & Hget & Hn & Hin)]; [by left|right].
    exists n. split; [|done]. congruence. }
  cbn [negb]. rewrite Htime.
  assert (time_ok (start_dt sp) (end_dt sp) event_dt = true) as ->
    by (by apply time_ok_spec).
  by left.
Qed.

Lemma elem_of_take_full {A} (x : A) n (l : list A) :
  x ∈ take n l → x ∈ l.
Proof.
  intros Hx. rewrite <- (take_drop n l). apply elem_of_app. by left.
Qed.

Lemma yields_elem_of steps v :
  v ∈ yields steps → Yield v ∈ steps.
Proof.
  induction steps as [|[|w|] steps IH]; simpl.
  - by intros ?%elem_of_nil.
  - intros Hv. right. by apply IH.
  - intros [->|Hv]%elem_of_cons; [left|right; by apply IH].
  - by intros ?%elem_of_nil.
Qed.

End LoopBody.

Section Arguments.
Context `{Builtins} `{Config}.

(** *** Projection *)

Lemma dict_set_fresh out f v :
  f ∉ out.*1 → dict_set out f v = out ++ [(f, v)].
Proof.
  induction out as [|[k w] out IH]; intros Hf; [done|].
  simpl in *. apply not_elem_of_cons in Hf as [Hne Hf].
  unfold Str.eqb. rewrite bool_decide_false by done. by rewrite IH.
Qed.

Lemma project_one_resolve data f out :
  project_one data f out = (v ← resolve data f; Ok (dict_set out f v)).
Proof.
  unfold project_one, resolve. by destruct (_get_dotted data f).
Qed.

Lemma for_each_project data fields vals out :
  NoDup (out.*1 ++ fields) →
  Forall2 (λ f v, resolve data f = Ok v) fields vals →
  for_each (project_one data) fields out = Ok (out ++ zip fields vals).
Proof.
  intros Hnd Hres. revert out Hnd.
  induction Hres as [|f v fields vals Hf _ IH]; intros out Hnd.
  { simpl. by rewrite app_nil_r. }
  cbn [for_each]. rewrite project_one_resolve, Hf. simpl.
  apply NoDup_app in Hnd as (Hout & Hdisj & Hfields).
  rewrite dict_set_fresh by (intros Hin; eapply Hdisj; [done|left]).
  rewrite IH.
  - by rewrite <- app_assoc.
  - rewrite fmap_app. simpl. rewrite <- app_assoc. simpl.
    apply NoDup_app. split_and!; [done| |done].
    intros x Hx. by apply Hdisj.
Qed.

(** What projection does whenever no path segment makes [int()] raise: one
    entry per requested path, keyed verbatim, in the order of the list, the
    value being what the path resolves to (root first, envelope second,
    [None] when neither resolves). *)
Lemma project_fields_safe data fields :
  NoDup fields → Forall int_safe fields →
  ∃ vals,
    Forall2 (λ f v, resolve data f = Ok v) fields vals
    ∧ _project_fields data fields = Ok (PDict (zip fields vals)).
Proof.
  intros Hnd Hsafe.
  assert (∃ vals, Forall2 (λ f v, resolve data f = Ok v) fields vals)
    as [vals Hvals].
  { clear Hnd. induction Hsafe as [|f fields Hf _ [vals IH]].
    - exists []. constructor.
    - unfold resolve at 1.
      destruct (get_dotted_safe data f Hf) as [v Hv].
      destruct (get_dotted_safe (event_root data) f Hf) as [w Hw].
      exists ((if is_none v then w else v) :: vals). constructor; [|done].
      unfold resolve. rewrite Hv. simpl. by destruct (is_none v). }
  exists vals. split; [done|]. unfold _project_fields.
  by rewrite (for_each_project data fields vals []).
Qed.

(** *** Overlapping keywords *)

Lemma filter_agree {A} (P Q : A → Prop) `{∀ x, Decision (P x)}
  `{∀ x, Decision (Q x)} (l : list A) :
  (∀ x, x ∈ l → P x ↔ Q x) → filter P l = filter Q l.
Proof.
  induction l as [|x l IH]; intros Hpq; [done|].
  rewrite !filter_cons.
  rewrite IH by (intros; apply Hpq; by right).
  assert (P x ↔ Q x) as Hx by (apply Hpq; left).
  destruct (decide (P x)), (decide (Q x)); tauto.
Qed.

Lemma filter_all {A} (P : A → Prop) `{∀ x, Decision (P x)} (l : list A) :
  (∀ x, x ∈ l → P x) → filter P l = l.
Proof.
  induction l as [|x l IH]; intros Hp; [done|].
  rewrite filter_cons, decide_True by (apply Hp; left).
  rewrite IH; [done|]. intros; apply Hp; by right.
Qed.

Lemma filter_none {A} (P : A → Prop) `{∀ x, Decision (P x)} (l : list A) :
  (∀ x, x ∈ l → ¬ P x) → filter P l = [].
Proof.
  induction l as [|x l IH]; intros Hp; [done|].
  rewrite filter_cons, decide_False by (apply Hp; left).
  apply IH. intros; apply Hp; by right.
Qed.

(** The overlap removal, whichever branch the code takes: each list loses
    exactly the terms that also occur in the other. *)
Lemma remove_overlaps_spec (A B : list pystr) :
  remove_overlaps A B
  = (filter (λ s, s ∉ B) A, filter (λ s, s ∉ A) B).
Proof.
  unfold remove_overlaps.
  destruct (truthy A && truthy B) eqn:Hsome.
  - case_bool_decide as Hov; simpl.
    + f_equal; symmetry; apply filter_all; intros s Hs Hin;
        apply (not_elem_of_empty (C:=gset pystr) s); rewrite <- Hov;
        apply elem_of_intersection; by rewrite !elem_of_list_to_set.
    + f_equal; apply filter_agree; intros s Hs;
        rewrite elem_of_intersection, !elem_of_list_to_set; tauto.
  - destruct A as [|a A]; simpl in *.
    + f_equal. symmetry. apply filter_all. intros s _. apply not_elem_of_nil.
    + destruct B as [|b B]; [|done]. rewrite filter_nil. f_equal.
      symmetry. apply filter_all. intros s _. apply not_elem_of_nil.
Qed.

Lemma remove_overlaps_equal_sets (A B : list pystr) :
  (∀ s, s ∈ A ↔ s ∈ B) → remove_overlaps A B = ([], []).
Proof.
  intros Hab. rewrite remove_overlaps_spec.
  f_equal; apply filter_none; intros s Hs Hn; apply Hn; by apply Hab.
Qed.

(** C4: when the two keyword arguments normalise to lists with the same
    elements, the call behaves as the call without keyword arguments; and
    in every case each normalised list loses the terms that also occur in
    the other before the loop starts. *)
Theorem overlapping_keywords_cancel (fs : pystr → fs_entry) (utc_now : Z)
  (evtx_path : pystr)
  (start_ end_ results_limit scan_limit ids inc exc flds : pyval)
  (A B : list pystr) :
  normalize_str_list inc true = Ok A →
  normalize_str_list exc true = Ok B →
  ((∀ s, s ∈ A ↔ s ∈ B) →
   iter_events_from_evtx fs utc_now evtx_path start_ end_ results_limit
     scan_limit ids inc exc flds
   = iter_events_from_evtx fs utc_now evtx_path start_ end_ results_limit
       scan_limit ids PNone PNone flds)
  ∧ (∀ l c sp,
       prepare utc_now l c start_ end_ ids inc exc flds = Ok sp →
       contains_lc sp = filter (λ s, s ∉ B) A
       ∧ not_contains_lc sp = filter (λ s, s ∉ A) B
       ∧ (∀ s, s ∈ A → s ∈ B →
               (s ∉ contains_lc sp) ∧ (s ∉ not_contains_lc sp))).
Proof.
  intros HA HB. split.
  - intros Hab.
    assert (∀ l c, prepare utc_now l c start_ end_ ids inc exc flds
                   = prepare utc_now l c start_ end_ ids PNone PNone flds)
      as Hprep.
    { intros l c. unfold prepare. rewrite HA, HB.
      destruct (normalize_bound utc_now start_); [|done].
      destruct (normalize_bound utc_now end_); [|done].
      simpl. destruct (swap_if_reversed _ _).
      by rewrite remove_overlaps_equal_sets. }
    unfold iter_events_from_evtx, iter_events_trace.
    destruct (fs _); [done| |].
    all: destruct (normalize_int results_limit _); [|done].
    all: destruct (normalize_int scan_limit _); [|done].
    all: by rewrite Hprep.
  - intros l c sp. unfold prepare. rewrite HA, HB.
    destruct (normalize_bound utc_now start_); [|done].
    destruct (normalize_bound utc_now end_); [|done].
    simpl. destruct (swap_if_reversed _ _).
    rewrite remove_overlaps_spec.
    destruct (normalize_int_list ids); [|done]. simpl.
    destruct (match flds with PNone => _ | _ => _ end); [|done]. simpl.
    intros [= <-]. simpl. split_and!; [done|done|].
    intros s Hsa Hsb. rewrite !list_elem_of_filter. tauto.
Qed.

(** *** Time bounds *)

(** The call sees its bounds, and the clock, only through what the bounds
    normalise to. *)
Lemma prepare_bound_ext now1 now2 l c s1 s2 e1 e2 ids inc exc flds :
  normalize_bound now1 s1 = normalize_bound now2 s2 →
  normalize_bound now1 e1 = normalize_bound now2 e2 →
  prepare now1 l c s1 e1 ids inc exc flds
  = prepare now2 l c s2 e2 ids inc exc flds.
Proof. intros Hs He. unfold prepare. by rewrite Hs, He. Qed.

Lemma iter_bound_ext fs now1 now2 evtx_path s1 s2 e1 e2 results_limit
  scan_limit ids inc exc flds :
  normalize_bound now1 s1 = normalize_bound now2 s2 →
  normalize_bound now1 e1 = normalize_bound now2 e2 →
  iter_events_from_evtx fs now1 evtx_path s1 e1 results_limit
    scan_limit ids inc exc flds
  = iter_events_from_evtx fs now2 evtx_path s2 e2 results_limit
      scan_limit ids inc exc flds.
Proof.
  intros Hs He. unfold iter_events_from_evtx, iter_events_trace.
  destruct (fs _); [done| |].
  all: destruct (normalize_int results_limit _); [|done].
  all: destruct (normalize_int scan_limit _); [|done].
  all: by rewrite (prepare_bound_ext now1 now2 _ _ s1 s2 e1 e2).
Qed.

Lemma normalize_bound_provided utc_now x :
  x ≠ PNone →
  normalize_bound utc_now x = Raise
  ∨ ∃ t, normalize_bound utc_now x = Ok (Some t).
Proof.
  intros Hx. destruct x as [| | | |s| | |d]; try done;
    try (right; by eexists).
  - unfold normalize_bound, normalize_timestamp.
    destruct (parse_datetime _) as [dt|]; [|right; by eexists].
    destruct (to_utc dt); [right; by eexists|by left].
  - unfold normalize_bound, normalize_timestamp.
    destruct (to_utc d); [right; by eexists|by left].
Qed.

Lemma swap_if_reversed_ordered a b :
  swap_if_reversed (Some a) (Some b)
  = (Some (Z.min a b), Some (Z.max a b)).
Proof.
  unfold swap_if_reversed. destruct (Z.gtb_spec a b).
  - by rewrite Z.min_r, Z.max_l by lia.
  - by rewrite Z.min_l, Z.max_r by lia.
Qed.

Lemma time_ok_inclusive lo hi dt :
  time_ok (Some lo) (Some hi) dt = true ↔ lo ≤ dt ≤ hi.
Proof.
  unfold time_ok. rewrite andb_true_iff, !negb_true_iff.
  destruct (Z.ltb_spec dt lo), (Z.gtb_spec dt hi); split; (lia || intuition).
Qed.

Lemma prepare_bounds_swapped utc_now l c start_ end_ ids inc exc flds :
  start_ ≠ PNone → end_ ≠ PNone →
  prepare utc_now l c start_ end_ ids inc exc flds
  = prepare utc_now l c end_ start_ ids inc exc flds.
Proof.
  intros Hs He. unfold prepare.
  destruct (normalize_bound_provided utc_now start_ Hs) as [->|[a ->]],
    (normalize_bound_provided utc_now end_ He) as [->|[b ->]]; try done.
  cbn -[swap_if_reversed]. rewrite !swap_if_reversed_ordered.
  by rewrite Z.min_comm, Z.max_comm.
Qed.

(** C5: with both bounds provided, exchanging them changes nothing, for
    one reading of the clock and, when neither bound falls back on the
    clock, for any two; the filter the loop runs under holds the earlier
    bound as start and the later one as end, and a record passes the range
    test exactly when its time lies between them, ends included. *)
Theorem reversed_bounds_are_swapped (fs : pystr → fs_entry) (utc_now : Z)
  (evtx_path : pystr)
  (start_ end_ results_limit scan_limit ids inc exc flds : pyval) :
  start_ ≠ PNone → end_ ≠ PNone →
  iter_events_from_evtx fs utc_now evtx_path start_ end_ results_limit
    scan_limit ids inc exc flds
  = iter_events_from_evtx fs utc_now evtx_path end_ start_ results_limit
      scan_limit ids inc exc flds
  ∧ (∀ later,
       normalize_bound utc_now start_ = normalize_bound later start_ →
       normalize_bound utc_now end_ = normalize_bound later end_ →
       iter_events_from_evtx fs utc_now evtx_path start_ end_
         results_limit scan_limit ids inc exc flds
       = iter_events_from_evtx fs later evtx_path end_ start_
           results_limit scan_limit ids inc exc flds)
  ∧ (∀ l c sp,
       prepare utc_now l c start_ end_ ids inc exc flds = Ok sp →
       ∃ a b,
         normalize_bound utc_now start_ = Ok (Some a)
         ∧ normalize_bound utc_now end_ = Ok (Some b)
         ∧ start_dt sp = Some (Z.min a b)
         ∧ end_dt sp = Some (Z.max a b)
         ∧ ∀ event_dt,
             time_ok (start_dt sp) (end_dt sp) event_dt = true
             ↔ Z.min a b ≤ event_dt ≤ Z.max a b).
Proof.
  intros Hs He.
  assert (iter_events_from_evtx fs utc_now evtx_path start_ end_
            results_limit scan_limit ids inc exc flds
          = iter_events_from_evtx fs utc_now evtx_path end_ start_
              results_limit scan_limit ids inc exc flds) as Hswap.
  { unfold iter_events_from_evtx, iter_events_trace.
    destruct (fs _); [done| |].
    all: destruct (normalize_int results_limit _); [|done].
    all: destruct (normalize_int scan_limit _); [|done].
    all: by rewrite prepare_bounds_swapped. }
  split_and!; [done| |].
  - intros later Hs' He'. rewrite Hswap. by apply iter_bound_ext.
  - intros l c sp. unfold prepare.
    destruct (normalize_bound_provided utc_now start_ Hs) as [->|[a ->]];
      [done|].
    destruct (normalize_bound_provided utc_now end_ He) as [->|[b ->]];
      [done|].
    cbn -[swap_if_reversed]. rewrite swap_if_reversed_ordered.
    destruct (normalize_str_list inc true); [|done].
    destruct (normalize_str_list exc true); [|done].
    simpl. destruct (remove_overlaps _ _).
    destruct (normalize_int_list ids); [|done]. simpl.
    destruct (match flds with PNone => _ | _ => _ end); [|done]. simpl.
    intros [= <-]. exists a, b. simpl. split_and!; try done.
    intros dt. apply time_ok_inclusive.
Qed.







End Arguments.

(** * Further properties of the code *)

(** ** normalize_wrapping_quotes: normal form, idempotence, what is removed *)

Lemma lstrip_idem s : Str.lstrip (Str.lstrip s) = Str.lstrip s.
Proof.
  induction s as [|c s IH]; [done|]. simpl.
  destruct (Str.isspace c) eqn:Hc; [done|]. simpl. by rewrite Hc.
Qed.

Lemma lstrip_snoc s c :
  Str.isspace c = false → Str.lstrip (s ++ [c]) = Str.lstrip s ++ [c].
Proof.
  intros Hc. induction s as [|a s IH]; simpl; [by rewrite Hc|].
  by destruct (Str.isspace a).
Qed.

Lemma rstrip_cons c s :
  Str.isspace c = false → Str.rstrip (c :: s) = c :: Str.rstrip s.
Proof.
  intros Hc. unfold Str.rstrip.
  by rewrite reverse_cons, lstrip_snoc, reverse_app by done.
Qed.

Lemma lstrip_fixed s :
  Str.lstrip s = s ↔ match s with c :: _ => Str.isspace c = false | [] => True end.
Proof.
  destruct s as [|c s]; [done|]. simpl.
  destruct (Str.isspace c) eqn:Hc; [|done]. split; [|done].
  intros Heq. pose proof (lstrip_length s) as Hlen.
  rewrite Heq in Hlen. simpl in Hlen. lia.
Qed.

Lemma lstrip_head s :
  match Str.lstrip s with c :: _ => Str.isspace c = false | [] => True end.
Proof. apply lstrip_fixed, lstrip_idem. Qed.

Lemma strip_idem s : Str.strip (Str.strip s) = Str.strip s.
Proof.
  unfold Str.strip. pose proof (lstrip_head s) as Hhead.
  destruct (Str.lstrip s) as [|c u]; [done|].
  rewrite rstrip_cons by done. simpl. rewrite Hhead.
  rewrite rstrip_cons by done. f_equal.
  unfold Str.rstrip. by rewrite reverse_involutive, lstrip_idem.
Qed.

(** What the normaliser returns is trimmed and not wrapped. *)
Lemma normalize_wrapping_quotes_normal n s :
  (length s ≤ n)%nat →
  Str.strip (normalize_wrapping_quotes s) = normalize_wrapping_quotes s
  ∧ wrapped (normalize_wrapping_quotes s) = false.
Proof.
  revert s. induction n as [|n IH]; intros s Hn;
    rewrite normalize_wrapping_quotes_unfold;
    destruct (wrapped (Str.strip s)) eqn:Hw;
    try (split; [apply strip_idem|done]).
  - apply wrapped_length in Hw. pose proof (strip_length s). lia.
  - apply IH. apply wrapped_length in Hw.
    pose proof (strip_length s). pose proof (slice_length (Str.strip s)).
    lia.
Qed.

(** A trimmed string without a wrapping pair is left as it is. *)
Lemma normalize_wrapping_quotes_again s :
  Str.strip s = s → wrapped s = false → normalize_wrapping_quotes s = s.
Proof.
  intros Hs Hw. by rewrite normalize_wrapping_quotes_unfold, Hs, Hw.
Qed.

(** X1: the result of the quote normaliser is in normal form, without
    surrounding whitespace and without a wrapping pair at its ends, and
    normalising it again changes nothing. *)
Theorem normalize_wrapping_quotes_idempotent (s : pystr) :
  Str.strip (normalize_wrapping_quotes s) = normalize_wrapping_quotes s
  ∧ wrapped (normalize_wrapping_quotes s) = false
  ∧ normalize_wrapping_quotes (normalize_wrapping_quotes s)
    = normalize_wrapping_quotes s.
Proof.
  destruct (normalize_wrapping_quotes_normal (length s) s) as [Hs Hw];
    [done|].
  split_and!; [done|done|].
  by apply normalize_wrapping_quotes_again.
Qed.

Lemma lstrip_suffix s : ∃ pre, s = pre ++ Str.lstrip s.
Proof.
  induction s as [|c s [pre IH]]; [by exists []|]. simpl.
  destruct (Str.isspace c); [|by exists []].
  exists (c :: pre). simpl. by f_equal.
Qed.

Lemma strip_infix s : ∃ pre post, s = pre ++ Str.strip s ++ post.
Proof.
  destruct (lstrip_suffix s) as [pre Hpre].
  destruct (lstrip_suffix (reverse (Str.lstrip s))) as [post Hpost].
  exists pre, (reverse post). unfold Str.strip, Str.rstrip.
  rewrite <- reverse_app, <- Hpost, reverse_involutive. done.
Qed.

Lemma slice_infix s :
  (2 ≤ length s)%nat → ∃ a b, s = a :: Str.slice_1_m1 s ++ [b].
Proof.
  intros Hlen. destruct s as [|a s]; [simpl in Hlen; lia|].
  destruct (decide (s = [])) as [->|Hne]; [simpl in Hlen; lia|].
  destruct (exists_last Hne) as (mid & b & ->).
  exists a, b. by rewrite slice_between.
Qed.

(** X2: the quote normaliser only removes characters from the two ends:
    its result occurs in the argument as one contiguous piece, so it is
    never longer and nothing inside it is altered. *)
Theorem normalize_wrapping_quotes_infix (s : pystr) :
  (∃ pre post, s = pre ++ normalize_wrapping_quotes s ++ post)
  ∧ (length (normalize_wrapping_quotes s) ≤ length s)%nat.
Proof.
  assert (∀ n s, (length s ≤ n)%nat →
            ∃ pre post, s = pre ++ normalize_wrapping_quotes s ++ post)
    as Hinfix.
  { clear s. induction n as [|n IH]; intros s Hn;
      rewrite normalize_wrapping_quotes_unfold;
      destruct (wrapped (Str.strip s)) eqn:Hw;
      try apply strip_infix.
    - apply wrapped_length in Hw. pose proof (strip_length s). lia.
    - pose proof (wrapped_length _ Hw) as Hlen.
      pose proof (strip_length s).
      pose proof (slice_length (Str.strip s)).
      destruct (IH (Str.slice_1_m1 (Str.strip s))) as (p1 & q1 & H1);
        [lia|].
      destruct (slice_infix _ Hlen) as (a & b & H2).
      destruct (strip_infix s) as (p3 & q3 & H3).
      exists (p3 ++ a :: p1), (q1 ++ b :: q3).
      rewrite H3 at 1. rewrite H2 at 1. rewrite H1 at 1.
      by simplify_list_eq. }
  destruct (Hinfix (length s) s) as (pre & post & Heq); [done|].
  split; [by exists pre, post|].
  rewrite Heq at 2. rewrite !length_app. lia.
Qed.

Section MoreNormalizers.
Context `{Builtins} `{Config}.

(** ** normalize_int *)

(** X3: with a positive default, whatever the normaliser accepts is a
    positive integer, and that integer is a fixed point: normalising it
    again returns it. *)
Theorem normalize_int_canonical (value : pyval) (default n : Z) :
  0 < default →
  normalize_int value default = Some n →
  0 < n ∧ normalize_int (PInt n) default = Some n.
Proof.
  intros Hd Hn.
  assert (0 < n) as Hpos.
  { destruct value as [|[]|m| |v| | |]; simpl in Hn; simplify_eq; try done.
    - destruct (Z.ltb_spec 0 m); by simplify_eq.
    - destruct (py_int _) as [i|]; [|done].
      destruct (Z.ltb_spec 0 i); by simplify_eq. }
  split; [done|]. simpl.
  destruct (Z.ltb_spec 0 n); [done|lia].
Qed.

End MoreNormalizers.

(** ** normalize_int_list and normalize_str_list *)

Section Lists.
Context `{Builtins} `{Config}.

Lemma grows_refl {A} `{Countable A} (P : A → Prop) (st : acc A) :
  grows P st st.
Proof. split; [done|]. exists []. by rewrite app_nil_r. Qed.

Lemma grows_trans {A} `{Countable A} (P : A → Prop) (a b c : acc A) :
  grows P a b → grows P b c → grows P a c.
Proof.
  intros [Hab (n1 & E1 & F1)] [Hbc (n2 & E2 & F2)]. split; [auto|].
  exists (n1 ++ n2). rewrite E2, E1, <- app_assoc. split; [done|].
  by apply Forall_app.
Qed.

Lemma acc_add_grows {A} `{Countable A} (P : A → Prop) (x : A) (st : acc A) :
  P x → grows P st (acc_add x st).
Proof.
  intros Hx. unfold acc_add. case_bool_decide as Hin; [apply grows_refl|].
  split.
  - intros [Hnd Hseen]. split; simpl.
    + apply NoDup_app. split_and!; [done| |apply NoDup_singleton].
      intros y Hy ->%list_elem_of_singleton. by apply Hin, Hseen.
    + intros y. rewrite elem_of_union, elem_of_singleton, elem_of_app,
        list_elem_of_singleton, Hseen. tauto.
  - exists [x]. split; [done|]. by constructor.
Qed.

Lemma foldl_grows {A B} `{Countable A} (P : A → Prop)
  (f : acc A → B → acc A) (xs : list B) (st : acc A) :
  (∀ st x, grows P st (f st x)) → grows P st (foldl f st xs).
Proof.
  intros Hf. revert st. induction xs as [|x xs IH]; intros st;
    [apply grows_refl|].
  simpl. eapply grows_trans; [apply Hf|apply IH].
Qed.

Lemma for_each_grows {A B} `{Countable A} (P : A → Prop)
  (f : B → acc A → result (acc A)) (xs : list B) (st st' : acc A) :
  (∀ x st st', f x st = Ok st' → grows P st st') →
  for_each f xs st = Ok st' → grows P st st'.
Proof.
  intros Hf. revert st. induction xs as [|x xs IH]; intros st Hrun.
  { simpl in Hrun. simplify_eq. apply grows_refl. }
  simpl in Hrun. destruct (f x st) as [st1|] eqn:Hx; [|done].
  simpl in Hrun. eapply grows_trans; [by eapply Hf|by apply IH].
Qed.

Lemma int_part_grows p st : grows (λ _, True) st (int_part p st).
Proof.
  unfold int_part. destruct (negb _); [apply grows_refl|].
  destruct (isdigit _); [|apply grows_refl].
  destruct (py_int _); [by apply acc_add_grows|apply grows_refl].
Qed.

Lemma int_handle_token_grows depth tok st st' :
  int_handle_token depth tok st = Ok st' → grows (λ _, True) st st'.
Proof.
  revert tok st st'. induction depth as [|depth IH]; intros tok st st';
    [done|].
  assert (∀ s, (if negb (Str.nonempty s) then Ok st
                else match _maybe_load_json_array s with
                     | Some arr => for_each (int_handle_token depth) arr st
                     | None =>
                         Ok (foldl (λ st p, int_part p st) st
                               (split_or_self s))
                     end) = Ok st' → grows (λ _, True) st st') as Hstr.
  { intros s. destruct (negb _); [intros [= <-]; apply grows_refl|].
    destruct (_maybe_load_json_array s) as [arr|].
    - by apply for_each_grows.
    - intros [= <-]. apply foldl_grows. intros; apply int_part_grows. }
  destruct tok; simpl; try apply Hstr.
  intros [= <-]. by apply acc_add_grows.
Qed.

Lemma acc_empty_wf {A} `{Countable A} : acc_wf (acc_empty (A:=A)).
Proof. split; [constructor|]. intros x. simpl. set_solver. Qed.

(** X4: whatever shape the argument has, the integer list comes back
    without duplicates. *)
Theorem normalize_int_list_no_duplicates (value : pyval) (l : list Z) :
  normalize_int_list value = Ok l → NoDup l.
Proof.
  unfold normalize_int_list. intros Hl.
  assert (∀ st : acc Z,
            grows (λ _, True) acc_empty st → NoDup (out st)) as Hfin.
  { intros st [Hwf _]. by apply Hwf, acc_empty_wf. }
  destruct value; simpl in Hl;
    try (injection Hl as <-; constructor);
    match type of Hl with
    | out <$> ?run = _ => destruct run as [st|] eqn:Hrun; [|done]
    end;
    simpl in Hl; injection Hl as <-; apply Hfin;
    first [ by eapply int_handle_token_grows
          | eapply for_each_grows; [|done];
            intros ? ? ?; apply int_handle_token_grows ].
Qed.

Lemma add_token_grows lowercase txt st :
  grows (token_form lowercase) st (add_token lowercase txt st).
Proof.
  unfold add_token.
  destruct (normalize_wrapping_quotes_normal (length txt) txt) as [Hs Hw];
    [done|].
  pose proof (normalize_wrapping_quotes_again _ Hs Hw) as Hidem.
  rewrite Hs.
  destruct (normalize_wrapping_quotes txt) as [|c t] eqn:Hn;
    [apply grows_refl|].
  simpl negb. cbv iota. apply acc_add_grows.
  exists (c :: t). done.
Qed.

Lemma str_handle_token_grows lowercase depth tok st st' :
  str_handle_token lowercase depth tok st = Ok st' →
  grows (token_form lowercase) st st'.
Proof.
  revert tok st st'. induction depth as [|depth IH]; intros tok st st';
    [done|].
  simpl. destruct (negb _); [intros [= <-]; apply grows_refl|].
  destruct (_maybe_load_json_array _) as [arr|].
  - by apply for_each_grows.
  - intros [= <-]. apply foldl_grows. intros; apply add_token_grows.
Qed.

(** X5: the string list comes back without duplicates, and each entry is
    a non-empty string in the normal form of the quote normaliser, put
    through [lower()] when [lowercase] is set.  Without lowering each
    entry is thus itself non-empty, trimmed and unwrapped; with lowering
    each entry is non-empty as long as [lower()] gives the empty string
    for no other string. *)
Theorem normalize_str_list_entries (value : pyval) (lowercase : bool)
  (l : list pystr) :
  normalize_str_list value lowercase = Ok l →
  NoDup l
  ∧ Forall (token_form lowercase) l
  ∧ (lowercase = false →
     Forall (λ s, s ≠ [] ∧ Str.strip s = s ∧ wrapped s = false
                  ∧ normalize_wrapping_quotes s = s) l)
  ∧ ((∀ t, t ≠ [] → str_lower t ≠ []) → Forall (λ s, s ≠ []) l).
Proof.
  unfold normalize_str_list. intros Hl.
  assert (∀ st : acc pystr, grows (token_form lowercase) acc_empty st →
                NoDup (out st) ∧ Forall (token_form lowercase) (out st))
    as Hfin.
  { intros st [Hwf (new & Hout & Hnew)]. split.
    - by apply Hwf, acc_empty_wf.
    - by rewrite Hout. }
  assert (NoDup l ∧ Forall (token_form lowercase) l) as [Hnd Hform].
  { destruct value; simpl in Hl;
      try (injection Hl as <-; split; constructor);
      match type of Hl with
      | out <$> ?run = _ => destruct run as [st|] eqn:Hrun; [|done]
      end;
      simpl in Hl; injection Hl as <-; apply Hfin;
      first [ by eapply str_handle_token_grows
            | eapply for_each_grows; [|done];
              intros ? ? ?; apply str_handle_token_grows ]. }
  split_and!; [done|done| |].
  - intros ->. eapply Forall_impl; [exact Hform|].
    intros s (t & Hne & Hnf & ->).
    destruct (normalize_wrapping_quotes_normal (length t) t) as [Hs Hw];
      [done|].
    rewrite Hnf in Hs, Hw. done.
  - intros Hlower. eapply Forall_impl; [exact Hform|].
    intros s (t & Hne & _ & ->). destruct lowercase; [by apply Hlower|done].
Qed.

End Lists.

(** *** Order of first occurrence *)

Lemma filter_not_in_nil {A} `{EqDecision A} (l : list A) :
  filter (λ y, y ∉ @nil A) l = l.
Proof.
  induction l as [|x l IH]; [done|].
  rewrite filter_cons_True by apply not_elem_of_nil. by rewrite IH.
Qed.

(** An element that was seen before adds nothing. *)
Lemma first_occurrences_seen {A} `{EqDecision A} (seen : list A) x l :
  x ∈ seen →
  filter (λ y, y ∉ seen) (first_occurrences (x :: l))
  = filter (λ y, y ∉ seen) (first_occurrences l).
Proof.
  intros Hx. cbn [first_occurrences].
  rewrite filter_cons_False by (intros Hn; by apply Hn).
  apply list_filter_filter_l. intros y Hy ->. by apply Hy.
Qed.

(** A new element comes next, and counts as seen from then on. *)
Lemma first_occurrences_new {A} `{EqDecision A} (seen : list A) x l :
  x ∉ seen →
  seen ++ filter (λ y, y ∉ seen) (first_occurrences (x :: l))
  = (seen ++ [x])
    ++ filter (λ y, y ∉ seen ++ [x]) (first_occurrences l).
Proof.
  intros Hx. cbn [first_occurrences].
  rewrite filter_cons_True by done. rewrite <- app_assoc. simpl.
  do 2 f_equal. rewrite list_filter_filter. apply list_filter_iff.
  intros y. rewrite elem_of_app, list_elem_of_singleton. tauto.
Qed.

Section CanonicalLists.
Context `{Builtins} `{Config}.

(** Adding the items of a list one by one appends their first
    occurrences, those already present left out. *)
Lemma foldl_acc_add_order {A} `{Countable A} (xs : list A) (st : acc A) :
  acc_wf st →
  out (foldl (λ st x, acc_add x st) st xs)
  = out st ++ filter (λ y, y ∉ out st) (first_occurrences xs).
Proof.
  revert st. induction xs as [|x xs IH]; intros st Hwf.
  { simpl. by rewrite filter_nil, app_nil_r. }
  cbn [foldl]. unfold acc_add at 2. case_bool_decide as Hin.
  - apply Hwf in Hin. rewrite IH by done.
    by rewrite first_occurrences_seen.
  - assert (x ∉ out st) as Hx by (intros ?; by apply Hin, Hwf).
    assert (acc_wf {| out := out st ++ [x]; seen := {[x]} ∪ seen st |})
      as Hwf1.
    { pose proof (acc_add_grows (λ _, True) x st I) as [Hg _].
      unfold acc_add in Hg. rewrite bool_decide_false in Hg by done.
      by apply Hg. }
    rewrite IH by done. cbn [out].
    by rewrite first_occurrences_new.
Qed.

(** Adding the items of a list one by one: what is appended is the list
    without what was already there and without repetitions, in order. *)
Lemma foldl_acc_add {A} `{Countable A} (xs : list A) (st : acc A) :
  acc_wf st →
  ∃ new,
    out (foldl (λ st x, acc_add x st) st xs) = out st ++ new
    ∧ acc_wf (foldl (λ st x, acc_add x st) st xs)
    ∧ new `sublist_of` xs
    ∧ (∀ x, x ∈ new ↔ x ∈ xs ∧ x ∉ out st)
    ∧ (NoDup xs → (∀ x, x ∈ xs → x ∉ out st) → new = xs).
Proof.
  revert st. induction xs as [|x xs IH]; intros st Hwf.
  { exists []. simpl. rewrite app_nil_r.
    split_and!; try done. intros x. rewrite elem_of_nil. tauto. }
  simpl. unfold acc_add at 2 4. case_bool_decide as Hin.
  - apply Hwf in Hin.
    destruct (IH st Hwf) as (new & Hout & Hwf' & Hsub & Hmem & Hid).
    exists new. split_and!; try done.
    + by apply sublist_cons.
    + intros y. rewrite Hmem, elem_of_cons. split; [tauto|].
      intros [[-> | ?] ?]; tauto.
    + intros _ Hdisj. exfalso. eapply Hdisj; [left|done].
  - assert (x ∉ out st) as Hx by (intros ?; by apply Hin, Hwf).
    assert (acc_wf {| out := out st ++ [x]; seen := {[x]} ∪ seen st |})
      as Hwf1.
    { pose proof (acc_add_grows (λ _, True) x st I) as [Hg _].
      unfold acc_add in Hg. rewrite bool_decide_false in Hg by done.
      by apply Hg. }
    destruct (IH _ Hwf1) as (new & Hout & Hwf' & Hsub & Hmem & Hid).
    simpl in Hout, Hmem, Hid.
    exists (x :: new). split_and!; try done.
    + by rewrite Hout, <- app_assoc.
    + by apply sublist_skip.
    + intros y. rewrite !elem_of_cons, Hmem, elem_of_app,
        list_elem_of_singleton.
      destruct (decide (y = x)) as [->|]; tauto.
    + intros [Hnx Hnd]%NoDup_cons Hdisj. f_equal. apply Hid; [done|].
      intros y Hy. rewrite elem_of_app, list_elem_of_singleton.
      intros [? | ->]; [|done]. eapply Hdisj; [by right|done].
Qed.

Lemma for_each_plain_ints depth ns st :
  for_each (int_handle_token (S depth)) (PInt <$> ns) st
  = Ok (foldl (λ st n, acc_add n st) st ns).
Proof.
  revert st. induction ns as [|n ns IH]; intros st; [done|].
  simpl. apply IH.
Qed.

(** X6: a list of plain integers is de-duplicated and nothing else: the
    result is the list of first occurrences, so it has the elements of
    the list, each once, in the order in which they first occur; a
    duplicate-free list comes back unchanged, so the result of any
    normalisation is a fixed point. *)
Theorem normalize_int_list_of_ints (ns : list Z) :
  (0 < recursion_limit)%nat →
  ∃ l,
    normalize_int_list (PList (PInt <$> ns)) = Ok l
    ∧ l = first_occurrences ns
    ∧ NoDup l
    ∧ (∀ n, n ∈ l ↔ n ∈ ns)
    ∧ l `sublist_of` ns
    ∧ (NoDup ns → l = ns).
Proof.
  intros Hdepth. destruct recursion_limit as [|depth] eqn:Hlimit; [lia|].
  unfold normalize_int_list, seq_items.
  rewrite Hlimit, for_each_plain_ints.
  destruct (foldl_acc_add ns (acc_empty (A:=Z)) acc_empty_wf)
    as (new & Hout & Hwf & Hsub & Hmem & Hid).
  pose proof (foldl_acc_add_order ns (acc_empty (A:=Z)) acc_empty_wf)
    as Horder.
  change (out (acc_empty (A:=Z))) with (@nil Z) in Horder.
  rewrite filter_not_in_nil, app_nil_l in Horder. simpl in Hout.
  exists new. rewrite <- Hout. split_and!; try done.
  - apply Hwf.
  - rewrite Hout. intros n. rewrite Hmem. simpl. rewrite elem_of_nil. tauto.
  - by rewrite Hout.
  - rewrite Hout. intros Hnd. apply Hid; [done|].
    intros x _. simpl. apply not_elem_of_nil.
Qed.

(** *** Strings that are already tokens *)

Lemma split_no_separator sep s : sep ∉ s → Str.split sep s = [s].
Proof.
  induction s as [|c s IH]; intros Hs; [done|].
  apply not_elem_of_cons in Hs as [Hne Hs]. simpl.
  rewrite (proj2 (N.eqb_neq c sep)) by done. by rewrite IH.
Qed.

Lemma replace_absent a b s : a ∉ s → Str.replace a b s = s.
Proof.
  induction s as [|c s IH]; intros Hs; [done|].
  apply not_elem_of_cons in Hs as [Hne Hs]. unfold Str.replace in *.
  cbn [fmap list_fmap]. rewrite (proj2 (N.eqb_neq c a)) by done.
  f_equal. by apply IH.
Qed.

Lemma normal_form_trimmed s :
  normalize_wrapping_quotes s = s → Str.strip s = s.
Proof.
  intros Hs. rewrite <- Hs.
  by destruct (normalize_wrapping_quotes_normal (length s) s) as [-> _].
Qed.

Lemma plain_token_handled lowercase depth s st :
  plain_token lowercase s →
  str_handle_token lowercase (S depth) (PStr s) st = Ok (acc_add s st).
Proof.
  intros (Hne & Hnf & Hcomma & Hsemi & Hjson & Hlow).
  pose proof (normal_form_trimmed s Hnf) as Htrim.
  assert (Str.nonempty s = true) as Hnon by (by destruct s).
  simpl. rewrite Hnf, Htrim, Hnon, Hjson. simpl.
  unfold split_or_self, _split_multi.
  rewrite replace_absent, split_no_separator by done.
  rewrite filter_cons, decide_True by (by rewrite Htrim).
  rewrite filter_nil. simpl. rewrite Htrim.
  unfold add_token. rewrite Hnf, Htrim, Hnon. simpl.
  destruct lowercase; [by rewrite Hlow|done].
Qed.

Lemma for_each_plain_tokens lowercase depth ss st :
  Forall (plain_token lowercase) ss →
  for_each (str_handle_token lowercase (S depth)) (PStr <$> ss) st
  = Ok (foldl (λ st s, acc_add s st) st ss).
Proof.
  intros Hss. revert st. induction Hss as [|s ss Hs _ IH]; intros st;
    [done|].
  cbn [fmap list_fmap for_each]. rewrite plain_token_handled by done.
  simpl. apply IH.
Qed.

(** X7: a list of strings that are already tokens (in normal form,
    non-empty, without comma or semicolon, not a JSON array, lowered when
    lowering is asked) is de-duplicated and nothing else: the result is
    the list of first occurrences; without duplicates the list comes back
    unchanged. *)
Theorem normalize_str_list_of_tokens (lowercase : bool) (ss : list pystr) :
  (0 < recursion_limit)%nat →
  Forall (plain_token lowercase) ss →
  ∃ l,
    normalize_str_list (PList (PStr <$> ss)) lowercase = Ok l
    ∧ l = first_occurrences ss
    ∧ NoDup l
    ∧ (∀ s, s ∈ l ↔ s ∈ ss)
    ∧ l `sublist_of` ss
    ∧ (NoDup ss → l = ss).
Proof.
  intros Hdepth Hss.
  destruct recursion_limit as [|depth] eqn:Hlimit; [lia|].
  unfold normalize_str_list, seq_items.
  rewrite Hlimit, for_each_plain_tokens by done.
  destruct (foldl_acc_add ss (acc_empty (A:=pystr)) acc_empty_wf)
    as (new & Hout & Hwf & Hsub & Hmem & Hid).
  pose proof (foldl_acc_add_order ss (acc_empty (A:=pystr)) acc_empty_wf)
    as Horder.
  change (out (acc_empty (A:=pystr))) with (@nil pystr) in Horder.
  rewrite filter_not_in_nil, app_nil_l in Horder. simpl in Hout.
  exists new. rewrite <- Hout. split_and!; try done.
  - apply Hwf.
  - rewrite Hout. intros s. rewrite Hmem. simpl. rewrite elem_of_nil. tauto.
  - by rewrite Hout.
  - rewrite Hout. intros Hnd. apply Hid; [done|].
    intros x _. simpl. apply not_elem_of_nil.
Qed.

(** *** Prefixes *)

Lemma for_each_app {A S} (f : A → S → result S) (xs ys : list A) (st : S) :
  for_each f (xs ++ ys) st = (st' ← for_each f xs st; for_each f ys st').
Proof.
  revert st. induction xs as [|x xs IH]; intros st; [done|].
  simpl. destruct (f x st); [apply IH|done].
Qed.

(** X8: both list normalisers work from left to right and only append:
    the result for the first items of a sequence is a prefix of the
    result for the whole sequence, so an entry keeps the place of its
    first occurrence whatever follows. *)
Theorem list_normalizers_keep_first_seen_order (xs ys : list pyval)
  (lowercase : bool) :
  (∀ l, normalize_str_list (PList (xs ++ ys)) lowercase = Ok l →
        ∃ l1, normalize_str_list (PList xs) lowercase = Ok l1
              ∧ l1 `prefix_of` l)
  ∧ (∀ l, normalize_int_list (PList (xs ++ ys)) = Ok l →
          ∃ l1, normalize_int_list (PList xs) = Ok l1 ∧ l1 `prefix_of` l).
Proof.
  split; intros l; unfold normalize_str_list, normalize_int_list, seq_items;
    rewrite for_each_app.
  - destruct (for_each _ xs _) as [st1|] eqn:H1; [|done]. simpl.
    destruct (for_each _ ys _) as [st2|] eqn:H2; [|done]. simpl.
    intros [= <-]. exists (out st1). split; [done|].
    eapply for_each_grows in H2 as [_ (new & -> & _)];
      [by exists new|].
    intros ? ? ?. apply str_handle_token_grows.
  - destruct (for_each _ xs _) as [st1|] eqn:H1; [|done]. simpl.
    destruct (for_each _ ys _) as [st2|] eqn:H2; [|done]. simpl.
    intros [= <-]. exists (out st1). split; [done|].
    eapply for_each_grows in H2 as [_ (new & -> & _)];
      [by exists new|].
    intros ? ? ?. apply int_handle_token_grows.
Qed.

End CanonicalLists.

(** ** Splitting on separators *)

Section Splitting.
Context `{Builtins} `{Config}.

Lemma split_parts_chars sep s p c :
  p ∈ Str.split sep s → c ∈ p → c ∈ s ∧ c ≠ sep.
Proof.
  revert p. induction s as [|a s IH]; intros p; simpl.
  - intros ->%list_elem_of_singleton Hc. by apply elem_of_nil in Hc.
  - destruct (N.eqb_spec a sep) as [->|Hne].
    + intros [->|Hp]%elem_of_cons Hc; [by apply elem_of_nil in Hc|].
      destruct (IH p Hp Hc). split; [by right|done].
    + destruct (Str.split sep s) as [|q qs] eqn:Hsplit.
      * intros ->%list_elem_of_singleton ->%list_elem_of_singleton.
        split; [left|done].
      * intros [->|Hp]%elem_of_cons Hc.
        -- apply elem_of_cons in Hc as [->|Hc]; [split; [left|done]|].
           destruct (IH q) as [? ?]; [left|done|]. split; [by right|done].
        -- destruct (IH p) as [? ?]; [by right|done|].
           split; [by right|done].
Qed.

Lemma replace_chars a b s c :
  a ≠ b → c ∈ Str.replace a b s → c ≠ a.
Proof.
  intros Hab (x & -> & Hx)%list_elem_of_fmap.
  destruct (N.eqb_spec x a); congruence.
Qed.

Lemma strip_chars s c : c ∈ Str.strip s → c ∈ s.
Proof.
  intros Hc. destruct (strip_infix s) as (pre & post & Hs). rewrite Hs.
  apply elem_of_app. right. apply elem_of_app. by left.
Qed.

(** X9: what [_split_multi] returns.  Each part is non-empty, trimmed
    and free of commas and semicolons; a string without separators is
    one part, itself trimmed, or none when it is blank. *)
Theorem split_multi_parts (s : pystr) :
  Forall (λ p, p ≠ [] ∧ Str.strip p = p ∧ (44%N ∉ p) ∧ (59%N ∉ p))
         (_split_multi s)
  ∧ ((44%N ∉ s) → (59%N ∉ s) →
     _split_multi s
     = if Str.nonempty (Str.strip s) then [Str.strip s] else []).
Proof.
  unfold _split_multi. split.
  - apply Forall_forall.
    intros p (q & -> & [Hne Hq]%list_elem_of_filter)%list_elem_of_fmap.
    split_and!.
    + by destruct (Str.strip q).
    + apply strip_idem.
    + intros Hc%strip_chars. by destruct (split_parts_chars _ _ _ _ Hq Hc).
    + intros Hc%strip_chars.
      destruct (split_parts_chars _ _ _ _ Hq Hc) as [Hin _].
      by apply (replace_chars 59 44) in Hin.
  - intros Hcomma Hsemi.
    rewrite replace_absent, split_no_separator by done.
    rewrite filter_cons, filter_nil.
    destruct (Str.nonempty (Str.strip s));
      [rewrite decide_True by done|rewrite decide_False by done]; done.
Qed.

End Splitting.

(** ** normalize_timestamp *)

Section Timestamps.
Context `{Builtins} `{Config}.

Lemma to_utc_outcome d :
  (to_utc d = Raise ↔ overflows d)
  ∧ (∀ t, to_utc d = Ok t → t = instant d).
Proof.
  unfold to_utc, overflows, instant. destruct (tzoffset d) as [off|]; simpl.
  - destruct (Z.eqb_spec off 0) as [->|Hoff].
    + split; [|intros t [= <-]; lia]. split; [done|].
      by intros (off & [= <-] & Hne & _).
    + destruct (Z.leb_spec 0 (wall d - off)),
        (Z.leb_spec (wall d - off) DATETIME_MAX); simpl;
        (split; [|by intros t [= <-]]); split; try done;
        try (intros (o & [= <-] & _ & Hr); lia);
        intros _; exists off; split_and!; (done || lia).
  - split; [|intros t [= <-]; lia]. split; [done|].
    by intros (off & ? & _).
Qed.

(** X10: the outcomes of the timestamp normaliser.  It raises exactly when
    the value stands for an aware datetime, not in UTC, whose conversion
    to UTC leaves the years 1 to 9999; it returns the instant of the
    datetime the value stands for when there is one; otherwise it returns
    the fallback, so with a fallback it never returns [None]. *)
Theorem normalize_timestamp_outcomes (value : pyval) (fallback : option Z) :
  (normalize_timestamp value fallback = Raise
   ↔ ∃ d, datetime_of value = Some d ∧ overflows d)
  ∧ (∀ d, datetime_of value = Some d → ¬ overflows d →
          normalize_timestamp value fallback = Ok (Some (instant d)))
  ∧ (datetime_of value = None →
     normalize_timestamp value fallback = Ok fallback)
  ∧ (normalize_timestamp value fallback = Ok None → fallback = None).
Proof.
  assert (∀ d, (Some <$> to_utc d = Raise ↔ overflows d)
               ∧ (¬ overflows d → Some <$> to_utc d = Ok (Some (instant d)))
               ∧ Some <$> to_utc d ≠ Ok None) as Hconv.
  { intros d. destruct (to_utc_outcome d) as [Hraise Hok].
    destruct (to_utc d) as [t|]; simpl.
    - split_and!; [|intros _; by rewrite (Hok t)|done].
      split; [done|]. intros Hov. by apply Hraise in Hov.
    - split_and!; [|intros Hn; by destruct Hn; apply Hraise|done].
      split; [|done]. intros _. by apply Hraise. }
  unfold normalize_timestamp, datetime_of.
  destruct value as [| | | |s| | |d];
    try (split_and!; [split; [done|by intros (? & ? & _)]
                     |done|done|by intros [= <-]]).
  - destruct (parse_datetime _) as [d|].
    + destruct (Hconv d) as (Hraise & Hok & Hnone).
      split_and!; [|by intros ? [= <-]|done|done].
      rewrite Hraise. split; [by exists d|by intros (? & [= <-] & ?)].
    + split_and!; [split; [done|by intros (? & ? & _)]
                  |done|done|by intros [= <-]].
  - destruct (Hconv d) as (Hraise & Hok & Hnone).
    split_and!; [|by intros ? [= <-]|done|done].
    rewrite Hraise. split; [by exists d|by intros (? & [= <-] & ?)].
Qed.

End Timestamps.

(** ** _get_dotted and _as_event_id *)

Section Paths.
Context `{Builtins} `{Config}.

Lemma split_nonempty sep s : Str.split sep s ≠ [].
Proof.
  destruct s as [|c s]; [done|]. simpl.
  destruct (c =? sep)%N; [done|]. by destruct (Str.split sep s).
Qed.

Lemma split_app sep a b :
  Str.split sep (a ++ sep :: b) = Str.split sep a ++ Str.split sep b.
Proof.
  induction a as [|c a IH]; simpl; [by rewrite N.eqb_refl|].
  destruct (c =? sep)%N; [by rewrite IH|]. rewrite IH.
  pose proof (split_nonempty sep a).
  by destruct (Str.split sep a).
Qed.

Lemma walk_path_none parts : walk_path PNone parts = Ok PNone.
Proof. by destruct parts. Qed.

Lemma walk_path_app cur pa pb :
  walk_path cur (pa ++ pb) = (v ← walk_path cur pa; walk_path v pb).
Proof.
  revert cur. induction pa as [|part pa IH]; intros cur; [done|].
  destruct cur as [| | | | |l|kvs|]; simpl;
    try (by rewrite walk_path_none).
  - destruct (isdigit part); [|simpl; by rewrite walk_path_none].
    destruct (py_int part) as [idx|]; [|done].
    destruct (_ && _); [|simpl; by rewrite walk_path_none].
    destruct (l !! Z.to_nat idx);
      [apply IH|simpl; by rewrite walk_path_none].
  - destruct (dict_get kvs part);
      [apply IH|simpl; by rewrite walk_path_none].
Qed.

(** X11: dotted paths compose: resolving "a.b" is resolving "a" and then
    "b" from what was found, a miss on the way giving [None] at the end. *)
Theorem get_dotted_composes (obj : pyval) (a b : pystr) :
  _get_dotted obj (a ++ 46%N :: b)
  = (v ← _get_dotted obj a; _get_dotted v b).
Proof.
  unfold _get_dotted. rewrite split_app. apply walk_path_app.
Qed.

Lemma walk_path_raises cur parts :
  walk_path cur parts = Raise →
  ∃ part, part ∈ parts ∧ isdigit part = true ∧ py_int part = None.
Proof.
  revert cur. induction parts as [|part parts IH]; intros cur; [done|].
  assert (∀ v, walk_path v parts = Raise →
               ∃ p, p ∈ part :: parts ∧ isdigit p = true ∧ py_int p = None)
    as Hrest.
  { intros v (p & Hin & Hp)%IH. exists p. split; [by right|done]. }
  destruct cur as [| | | | |l|kvs|]; simpl; try done.
  - destruct (isdigit part) eqn:Hd; [|done].
    destruct (py_int part) as [idx|] eqn:Hi.
    + destruct (_ && _); [|done].
      destruct (l !! Z.to_nat idx); [apply Hrest|done].
    + intros _. exists part. split; [left|done].
  - destruct (dict_get kvs part); [apply Hrest|done].
Qed.

(** X12: the one way [_get_dotted] raises: some segment of the path passes
    [isdigit] and is refused by [int].  On a root that is neither a dict
    nor a list it returns [None] whatever the path. *)
Theorem get_dotted_raises_only_on_bad_index (obj : pyval) (f : pystr) :
  (_get_dotted obj f = Raise →
   ∃ part, part ∈ Str.split 46 f ∧ isdigit part = true
           ∧ py_int part = None)
  ∧ (match obj with PDict _ | PList _ => False | _ => True end →
     _get_dotted obj f = Ok PNone).
Proof.
  split; [apply walk_path_raises|].
  unfold _get_dotted. pose proof (split_nonempty 46 f) as Hne.
  destruct (Str.split 46 f) as [|part parts]; [done|].
  by destruct obj.
Qed.

(** X13: event-id wrappers are opened one nested call each.  With calls
    to spare, an id under "#text", "value" or "Value", nested any number
    of times, is the id of the innermost value; when the wrappers use up
    the calls that are left, the function raises [RecursionError]; and
    when "#text" is present its value alone is used, whatever the other
    keys hold. *)
Theorem as_event_id_unwraps (keys : list pystr) (v : pyval)
  (kvs : list (pystr * pyval)) (depth : nat) :
  Forall (λ k, k ∈ ID_KEYS) keys →
  _as_event_id (length keys + depth) (wrap_id keys v) = _as_event_id depth v
  ∧ ((depth ≤ length keys)%nat →
     _as_event_id depth (wrap_id keys v) = Raise)
  ∧ (dict_get kvs (str "#text") = Some v →
     _as_event_id (S depth) (PDict kvs) = _as_event_id depth v).
Proof.
  intros Hkeys.
  assert (∀ k inner d, k ∈ ID_KEYS →
            _as_event_id (S d) (PDict [(k, inner)]) = _as_event_id d inner)
    as Hstep.
  { intros k inner d Hk. unfold ID_KEYS in Hk.
    rewrite !elem_of_cons, elem_of_nil in Hk.
    destruct Hk as [-> | [-> | [-> | []]]]; reflexivity. }
  split_and!.
  - induction Hkeys as [|k keys Hk _ IH]; [done|].
    cbn [wrap_id foldr length Nat.add]. fold (wrap_id keys v).
    by rewrite Hstep.
  - revert depth. induction Hkeys as [|k keys Hk _ IH]; intros depth Hd.
    + simpl in Hd. by replace depth with 0%nat by lia.
    + destruct depth as [|d]; [done|].
      cbn [wrap_id foldr]. fold (wrap_id keys v).
      rewrite Hstep by done. apply IH. simpl in Hd. lia.
  - intros Hget. cbn [_as_event_id]. by rewrite Hget.
Qed.

(** *** _project_fields with repeated paths *)

Lemma str_eqb_refl a : Str.eqb a a = true.
Proof. unfold Str.eqb. by apply bool_decide_eq_true. Qed.

Lemma str_eqb_ne a b : a ≠ b → Str.eqb a b = false.
Proof. intros Hne. unfold Str.eqb. by apply bool_decide_eq_false. Qed.

Lemma str_eqb_true a b : Str.eqb a b = true → a = b.
Proof. unfold Str.eqb. by intros ?%bool_decide_eq_true. Qed.

Lemma dict_get_set_eq out f v : dict_get (dict_set out f v) f = Some v.
Proof.
  induction out as [|[k w] out IH]; cbn [dict_set dict_get].
  - by rewrite str_eqb_refl.
  - destruct (Str.eqb k f) eqn:Hk; cbn [dict_get]; by rewrite Hk.
Qed.

Lemma dict_get_set_ne out f g v :
  f ≠ g → dict_get (dict_set out f v) g = dict_get out g.
Proof.
  intros Hne. induction out as [|[k w] out IH]; cbn [dict_set dict_get].
  - by rewrite str_eqb_ne.
  - destruct (Str.eqb k f) eqn:Hk; cbn [dict_get]; [|by rewrite IH].
    apply str_eqb_true in Hk as ->. by rewrite !str_eqb_ne.
Qed.

Lemma dict_set_keys out f v :
  (dict_set out f v).*1 = if decide (f ∈ out.*1) then out.*1
                          else out.*1 ++ [f].
Proof.
  induction out as [|[k w] out IH]; cbn [dict_set].
  - by rewrite decide_False by apply not_elem_of_nil.
  - destruct (Str.eqb k f) eqn:Hk.
    + apply str_eqb_true in Hk as ->. simpl.
      by rewrite decide_True by left.
    + rewrite fmap_cons, IH. simpl.
      destruct (decide (f ∈ out.*1)) as [Hin|Hin].
      * by rewrite decide_True by (by right).
      * rewrite decide_False; [done|].
        rewrite elem_of_cons. intros [-> | ?]; [|done].
        by rewrite str_eqb_refl in Hk.
Qed.

Lemma for_each_project_general data fields out :
  Forall int_safe fields → NoDup out.*1 →
  ∃ out',
    for_each (project_one data) fields out = Ok out'
    ∧ NoDup out'.*1
    ∧ (∃ new, out'.*1 = out.*1 ++ new ∧ new `sublist_of` fields)
    ∧ (∀ f, f ∈ out'.*1 ↔ f ∈ out.*1 ∨ f ∈ fields)
    ∧ (∀ f, f ∈ fields →
            ∃ v, resolve data f = Ok v ∧ dict_get out' f = Some v)
    ∧ (∀ f, f ∉ fields → dict_get out' f = dict_get out f).
Proof.
  intros Hsafe. revert out.
  induction Hsafe as [|f fields Hf _ IH]; intros out Hnd.
  { exists out. split_and!; try done.
    - exists []. by rewrite app_nil_r.
    - intros f. rewrite elem_of_nil. tauto.
    - intros f []%elem_of_nil. }
  cbn [for_each]. rewrite project_one_resolve.
  assert (∃ v, resolve data f = Ok v) as [v Hv].
  { unfold resolve. destruct (get_dotted_safe data f Hf) as [a ->].
    destruct (get_dotted_safe (event_root data) f Hf) as [b ->].
    simpl. destruct (is_none a); by eexists. }
  rewrite Hv. simpl.
  assert (NoDup (dict_set out f v).*1) as Hnd1.
  { rewrite dict_set_keys. destruct (decide _); [done|].
    apply NoDup_app. split_and!; [done| |apply NoDup_singleton].
    by intros x Hx ->%list_elem_of_singleton. }
  destruct (IH _ Hnd1)
    as (out' & Hrun & Hnd' & (new & Hkeys & Hsub) & Hmem & Hval & Hother).
  exists out'. split_and!; try done.
  - rewrite dict_set_keys in Hkeys. destruct (decide (f ∈ out.*1)).
    + exists new. split; [done|]. by apply sublist_cons.
    + exists (f :: new). rewrite Hkeys, <- app_assoc.
      split; [done|]. by apply sublist_skip.
  - intros g. rewrite Hmem, dict_set_keys, elem_of_cons.
    destruct (decide (f ∈ out.*1)).
    + split; [tauto|]. intros [? | [-> | ?]]; tauto.
    + rewrite elem_of_app, list_elem_of_singleton. tauto.
  - intros g Hg. destruct (decide (g ∈ fields)) as [Hin|Hin];
      [by apply Hval|].
    apply elem_of_cons in Hg as [-> | ?]; [|done].
    exists v. split; [done|]. by rewrite Hother, dict_get_set_eq.
  - intros g Hg. apply not_elem_of_cons in Hg as [Hne Hg].
    by rewrite Hother, dict_get_set_ne.
Qed.

(** The keys after projecting: those there before, then the first
    occurrences of the paths that are new. *)
Lemma for_each_project_order data fields out out' :
  for_each (project_one data) fields out = Ok out' →
  out'.*1 = out.*1 ++ filter (λ f, f ∉ out.*1) (first_occurrences fields).
Proof.
  revert out. induction fields as [|f fields IH]; intros out.
  { intros [= <-]. simpl. by rewrite filter_nil, app_nil_r. }
  cbn [for_each]. rewrite project_one_resolve.
  destruct (resolve data f) as [v|]; [|done].
  rewrite !result_bind_ok. intros Hrun%IH. rewrite Hrun, dict_set_keys.
  destruct (decide (f ∈ out.*1)) as [Hin|Hin].
  - by rewrite first_occurrences_seen.
  - by rewrite first_occurrences_new.
Qed.

(** X14: projection on any list of paths of which no segment makes
    [int()] raise, repeated paths included: the result has one entry per
    distinct path, keyed by the path verbatim; its keys are the first
    occurrences of the paths, in that order; and the value of a path is
    what it resolves to, from the root first and from inside the envelope
    second. *)
Theorem project_fields_one_entry_per_path (data : pyval)
  (fields : list pystr) :
  Forall int_safe fields →
  ∃ out,
    _project_fields data fields = Ok (PDict out)
    ∧ out.*1 = first_occurrences fields
    ∧ NoDup out.*1
    ∧ out.*1 `sublist_of` fields
    ∧ (∀ f, f ∈ out.*1 ↔ f ∈ fields)
    ∧ (∀ f, f ∈ fields →
            ∃ v, resolve data f = Ok v ∧ dict_get out f = Some v).
Proof.
  intros Hsafe.
  destruct (for_each_project_general data fields [] Hsafe)
    as (out & Hrun & Hnd & (new & Hkeys & Hsub) & Hmem & Hval & _);
    [constructor|].
  pose proof (for_each_project_order _ _ _ _ Hrun) as Horder.
  change (([] : list (pystr * pyval)).*1) with (@nil pystr) in Horder.
  rewrite filter_not_in_nil, app_nil_l in Horder.
  exists out. unfold _project_fields. rewrite Hrun.
  split_and!; try done.
  - by rewrite Hkeys.
  - intros f. rewrite Hmem. simpl. rewrite elem_of_nil. tauto.
Qed.

End Paths.

(** ** The event stream filter *)

Section MoreFilter.
Context `{Builtins} `{Config}.

(** The loop body reads the filter, not the limits. *)
Lemma process_record_ext sp1 sp2 r :
  start_dt sp1 = start_dt sp2 → end_dt sp1 = end_dt sp2 →
  contains_lc sp1 = contains_lc sp2 →
  not_contains_lc sp1 = not_contains_lc sp2 →
  wanted_ids sp1 = wanted_ids sp2 →
  (∀ ev, emit sp1 ev = emit sp2 ev) →
  process_record sp1 r = process_record sp2 r.
Proof.
  intros Hs He Hc Hn Hw Hemit.
  unfold process_record, keywords_ok, event_id_ok.
  rewrite Hs, He, Hc, Hn, Hw.
  destruct (data r); try done.
  destruct (negb _); [done|]. destruct (negb _); [done|].
  destruct (json_loads _) as [ev|]; [|done].
  destruct (_get_dotted ev _) as [eid_raw|]; [|done].
  destruct (_as_event_id recursion_limit eid_raw) as [eid|]; [|done].
  destruct (negb _); [done|].
  destruct (_ ≫= _) as [[dt|]|]; try done.
  by rewrite Hemit.
Qed.

Lemma records_loop_ext sp1 sp2 records st :
  lim sp1 = lim sp2 → cap sp1 = cap sp2 →
  (∀ r, process_record sp1 r = process_record sp2 r) →
  records_loop sp1 records st = records_loop sp2 records st.
Proof.
  intros Hl Hc Hp. revert st.
  induction records as [|[r|] records IH]; intros st; try done.
  simpl. rewrite Hl, Hc, Hp.
  destruct (cap sp2 <=? scanned st); [done|].
  destruct (lim sp2 <=? returned st); [done|].
  destruct (process_record sp2 r); by rewrite ?IH.
Qed.

Lemma classify_with_limits l c sp p :
  classify (with_limits l c sp) p = classify sp p.
Proof. destruct p; [|done]. by apply process_record_ext. Qed.

Lemma prepare_with_limits utc_now l c l' c' start_ end_ ids inc exc flds sp :
  prepare utc_now l c start_ end_ ids inc exc flds = Ok sp →
  prepare utc_now l' c' start_ end_ ids inc exc flds
  = Ok (with_limits l' c' sp).
Proof.
  unfold prepare.
  destruct (normalize_bound utc_now start_); [|done].
  destruct (normalize_bound utc_now end_); [|done].
  simpl. destruct (swap_if_reversed _ _).
  destruct (normalize_str_list inc true); [|done].
  destruct (normalize_str_list exc true); [|done].
  simpl. destruct (remove_overlaps _ _).
  destruct (normalize_int_list ids); [|done].
  simpl. destruct (match flds with PNone => _ | _ => _ end); [|done].
  simpl. by intros [= <-].
Qed.

Lemma yields_app_prefix steps more :
  yields steps `prefix_of` yields (steps ++ more).
Proof.
  induction steps as [|[|v|] steps IH]; simpl.
  - apply prefix_nil.
  - done.
  - by apply prefix_cons.
  - done.
Qed.

Lemma prefix_take_of {A} (l Y : list A) n :
  l `prefix_of` Y → (length l ≤ n)%nat → l `prefix_of` take n Y.
Proof.
  intros [k ->] Hn. rewrite take_app_ge by done.
  by apply prefix_app_r.
Qed.

Lemma loop_output_monotone sp records l1 c1 l2 c2 :
  l1 ≤ l2 → c1 ≤ c2 →
  (records_loop (with_limits l1 c1 sp) records zero).1
    `prefix_of` (records_loop (with_limits l2 c2 sp) records zero).1.
Proof.
  intros Hl Hc. rewrite !records_loop_out. simpl. rewrite !Z.sub_0_r.
  rewrite (list_fmap_ext (classify (with_limits l1 c1 sp)) (classify sp))
    by (intros; apply classify_with_limits).
  rewrite (list_fmap_ext (classify (with_limits l2 c2 sp)) (classify sp))
    by (intros; apply classify_with_limits).
  apply prefix_take_of; [|rewrite length_take; lia].
  etrans; [apply prefix_take|].
  replace (take (Z.to_nat c2) records)
    with (take (Z.to_nat c1) records
          ++ drop (Z.to_nat c1) (take (Z.to_nat c2) records)).
  - rewrite fmap_app. apply yields_app_prefix.
  - rewrite <- (take_drop (Z.to_nat c1) (take (Z.to_nat c2) records)) at 2.
    f_equal. rewrite take_take. f_equal. lia.
Qed.

(** X15: raising a limit only appends.  Of two calls that differ in their
    limits alone, the one with the smaller result and scan limits returns
    a prefix of what the other returns. *)
Theorem raising_limits_extends_output (fs : pystr → fs_entry) (utc_now : Z)
  (evtx_path : pystr)
  (start_ end_ ids inc exc flds r1 s1 r2 s2 : pyval) (a b c d : Z)
  (o1 o2 : list pyval) :
  normalize_int r1 RESULTS_LIMIT = Some a →
  normalize_int r2 RESULTS_LIMIT = Some b →
  normalize_int s1 SCAN_LIMIT = Some c →
  normalize_int s2 SCAN_LIMIT = Some d →
  a ≤ b → c ≤ d →
  iter_events_from_evtx fs utc_now evtx_path start_ end_ r1 s1 ids inc exc
    flds = Ok o1 →
  iter_events_from_evtx fs utc_now evtx_path start_ end_ r2 s2 ids inc exc
    flds = Ok o2 →
  o1 `prefix_of` o2.
Proof.
  intros Ha Hb Hc Hd Hab Hcd.
  unfold iter_events_from_evtx, iter_events_trace.
  rewrite Ha, Hb, Hc, Hd.
  destruct (fs _) as [| |records].
  - intros [= <-] _. apply prefix_nil.
  - destruct (prepare _ (Z.min a _) _ _ _ _ _ _ _) as [sp|]; done.
  - destruct (prepare _ (Z.min a _) _ _ _ _ _ _ _) as [sp|] eqn:Hp; [|done].
    rewrite (prepare_with_limits _ _ _ (Z.min b RESULTS_LIMIT)
               (Z.min d SCAN_LIMIT) _ _ _ _ _ _ _ Hp).
    pose proof (prepare_limits _ _ _ _ _ _ _ _ _ _ Hp) as [Hlim Hcap].
    simpl. intros [= <-] [= <-].
    rewrite (records_loop_ext sp
               (with_limits (Z.min a RESULTS_LIMIT) (Z.min c SCAN_LIMIT) sp))
      by (try done; intros; by apply process_record_ext).
    apply loop_output_monotone; lia.
Qed.

(** X16: only records that pass the filter are returned.  Each value in
    the output of the loop stems from one of the records pulled: a record
    that passes the keyword, event id and time tests of the filter, as
    the event its payload parses to, whole or projected on the requested
    fields. *)
Theorem loop_output_is_sound (sp : FilterSpec) (records : list pulled)
  (v : pyval) :
  v ∈ (records_loop sp records zero).1 →
  ∃ r ev event_dt,
    Rec r ∈ records ∧ passes sp r ev event_dt ∧ emit sp ev = Yield v.
Proof.
  rewrite records_loop_out.
  intros Hv%elem_of_take_full%yields_elem_of%list_elem_of_fmap.
  destruct Hv as ([r|] & Hstep & Hin%elem_of_take_full); [|done].
  symmetry in Hstep. apply process_record_yields in Hstep
    as (ev & dt & Hpass & Hemit).
  by exists r, ev, dt.
Qed.

Lemma yields_sublist_emitted sp records :
  yields (classify sp <$> records)
    `sublist_of` omap (λ p, parseable_event p ≫= emitted sp) records.
Proof.
  induction records as [|[r|] records IH]; simpl;
    [apply sublist_nil_l| |apply sublist_nil_l].
  destruct (process_record sp r) as [|v|] eqn:Hstep.
  - destruct (_ ≫= _); [by apply sublist_cons|done].
  - apply process_record_yields in Hstep
      as (ev & dt & (payload & Hdata & Hne & Hev & _) & Hemit).
    unfold event_of. rewrite Hdata.
    assert (Str.nonempty payload = true) as -> by (by destruct payload).
    rewrite Hev. simpl. unfold emitted. rewrite Hemit.
    by apply sublist_skip.
  - apply sublist_nil_l.
Qed.

(** X17: a filter only drops.  Whatever the filter, the output of the
    loop is a subsequence of what the parseable records of the source
    give, in their order: no event is reordered, repeated or made up. *)
Theorem loop_output_is_a_subsequence (sp : FilterSpec)
  (records : list pulled) (st : counters) :
  (records_loop sp records st).1
    `sublist_of` omap (λ p, parseable_event p ≫= emitted sp) records.
Proof.
  rewrite records_loop_out.
  etrans; [apply sublist_take|].
  etrans; [|apply yields_sublist_emitted].
  assert (∀ n, yields (classify sp <$> take n records)
                 `sublist_of` yields (classify sp <$> records)) as Hcut.
  { intros n. rewrite <- (take_drop n records) at 2. rewrite fmap_app.
    destruct (yields_app_prefix (classify sp <$> take n records)
                (classify sp <$> drop n records)) as [k ->].
    by apply sublist_inserts_r. }
  apply Hcut.
Qed.

Lemma yields_length steps : (length (yields steps) ≤ length steps)%nat.
Proof.
  induction steps as [|[|v|] steps IH]; simpl; lia.
Qed.

Lemma yields_all steps v :
  Abort ∉ steps → Yield v ∈ steps → v ∈ yields steps.
Proof.
  induction steps as [|[|w|] steps IH]; simpl.
  - by intros _ ?%elem_of_nil.
  - intros Hab%not_elem_of_cons [?|Hv]%elem_of_cons; [done|].
    apply IH; [by destruct Hab|done].
  - intros Hab%not_elem_of_cons [[= ->]|Hv]%elem_of_cons; [left|].
    right. apply IH; [by destruct Hab|done].
  - intros Hab. exfalso. apply Hab. left.
Qed.

(** X18: within the limits, every record that passes is returned.  When
    the two limits are not below the number of records and neither the
    decoder nor the loop body raises on any of them, each record that
    passes the filter has its event, whole or projected, in the
    output. *)
Theorem loop_output_is_complete (sp : FilterSpec) (records : list pulled)
  (r : raw_record) (ev v : pyval) (event_dt : Z) :
  Z.of_nat (length records) ≤ lim sp →
  Z.of_nat (length records) ≤ cap sp →
  (∀ p, p ∈ records → classify sp p ≠ Abort) →
  Rec r ∈ records → passes sp r ev event_dt → emit sp ev = Yield v →
  v ∈ (records_loop sp records zero).1.
Proof.
  intros Hlim Hcap Hsafe Hin Hpass Hemit.
  rewrite records_loop_out. simpl. rewrite !Z.sub_0_r.
  rewrite (take_ge records) by lia.
  rewrite take_ge
    by (etrans; [apply yields_length|]; rewrite length_fmap; lia).
  apply yields_all.
  - intros (p & Hstep & Hp)%list_elem_of_fmap. by apply (Hsafe p).
  - apply list_elem_of_fmap. exists (Rec r). split; [|done].
    simpl. symmetry.
    destruct (process_record_passes _ _ _ _ _ Hpass Hemit) as [Hy|Hab];
      [done|].
    by destruct (Hsafe (Rec r) Hin).
Qed.

End MoreFilter.

(** ** Arguments of the filter and its callers *)

Section MoreArguments.
Context `{Builtins} `{Config}.

Lemma prepare_args_ext utc_now l c s1 s2 e1 e2 ids1 ids2 inc1 inc2 exc1 exc2
  flds :
  normalize_bound utc_now s1 = normalize_bound utc_now s2 →
  normalize_bound utc_now e1 = normalize_bound utc_now e2 →
  normalize_int_list ids1 = normalize_int_list ids2 →
  normalize_str_list inc1 true = normalize_str_list inc2 true →
  normalize_str_list exc1 true = normalize_str_list exc2 true →
  prepare utc_now l c s1 e1 ids1 inc1 exc1 flds
  = prepare utc_now l c s2 e2 ids2 inc2 exc2 flds.
Proof.
  intros Hs He Hids Hinc Hexc. unfold prepare.
  by rewrite Hs, He, Hids, Hinc, Hexc.
Qed.

Lemma trace_prepare_ext fs utc_now evtx_path rl sl s1 s2 e1 e2 ids1 ids2
  inc1 inc2 exc1 exc2 flds1 flds2 :
  (∀ l c, prepare utc_now l c s1 e1 ids1 inc1 exc1 flds1
          = prepare utc_now l c s2 e2 ids2 inc2 exc2 flds2) →
  iter_events_trace fs utc_now evtx_path s1 e1 rl sl ids1 inc1 exc1 flds1
  = iter_events_trace fs utc_now evtx_path s2 e2 rl sl ids2 inc2 exc2 flds2.
Proof.
  intros Hp. unfold iter_events_trace.
  destruct (fs _); [done| |].
  all: destruct (normalize_int rl _); [|done].
  all: destruct (normalize_int sl _); [|done].
  all: by rewrite Hp.
Qed.

(** A [fields] argument that normalises to the empty list leaves the
    loop as it is without projection: [if fields_norm:] is false for
    both. *)
Lemma prepare_fields_empty utc_now l c s e ids inc exc flds :
  normalize_str_list flds false = Ok [] →
  match prepare utc_now l c s e ids inc exc flds,
        prepare utc_now l c s e ids inc exc PNone with
  | Ok sp, Ok sp' =>
      lim sp = lim sp' ∧ cap sp = cap sp'
      ∧ ∀ r, process_record sp r = process_record sp' r
  | Raise, Raise => True
  | _, _ => False
  end.
Proof.
  intros Hf. unfold prepare.
  destruct (normalize_bound utc_now s); [|done].
  destruct (normalize_bound utc_now e); [|done].
  simpl. destruct (swap_if_reversed _ _).
  destruct (normalize_str_list inc true); [|done].
  destruct (normalize_str_list exc true); [|done].
  simpl. destruct (remove_overlaps _ _).
  destruct (normalize_int_list ids); [|done].
  simpl. destruct flds; rewrite ?Hf; simpl;
    (split_and!; [done|done|intros r; by apply process_record_ext]).
Qed.

(** X19: a filter argument that normalises to nothing is no filter.  An
    [event_ids], [contains], [not_contains] or [fields] argument whose
    normal form is the empty list (an empty or blank string, an empty
    list, separators only) gives the call the outcome it has with the
    argument left out. *)
Theorem empty_filters_are_no_filters (fs : pystr → fs_entry) (utc_now : Z)
  (evtx_path : pystr)
  (start_ end_ results_limit scan_limit ids inc exc flds : pyval) :
  (normalize_int_list ids = Ok [] →
   iter_events_from_evtx fs utc_now evtx_path start_ end_ results_limit
     scan_limit ids inc exc flds
   = iter_events_from_evtx fs utc_now evtx_path start_ end_ results_limit
       scan_limit PNone inc exc flds)
  ∧ (normalize_str_list inc true = Ok [] →
     iter_events_from_evtx fs utc_now evtx_path start_ end_ results_limit
       scan_limit ids inc exc flds
     = iter_events_from_evtx fs utc_now evtx_path start_ end_ results_limit
         scan_limit ids PNone exc flds)
  ∧ (normalize_str_list exc true = Ok [] →
     iter_events_from_evtx fs utc_now evtx_path start_ end_ results_limit
       scan_limit ids inc exc flds
     = iter_events_from_evtx fs utc_now evtx_path start_ end_ results_limit
         scan_limit ids inc PNone flds)
  ∧ (normalize_str_list flds false = Ok [] →
     iter_events_from_evtx fs utc_now evtx_path start_ end_ results_limit
       scan_limit ids inc exc flds
     = iter_events_from_evtx fs utc_now evtx_path start_ end_ results_limit
         scan_limit ids inc exc PNone).
Proof.
  unfold iter_events_from_evtx. split_and!.
  - intros Hids. f_equal. apply trace_prepare_ext. intros l c.
    by apply prepare_args_ext.
  - intros Hinc. f_equal. apply trace_prepare_ext. intros l c.
    by apply prepare_args_ext.
  - intros Hexc. f_equal. apply trace_prepare_ext. intros l c.
    by apply prepare_args_ext.
  - intros Hf. f_equal. unfold iter_events_trace.
    destruct (fs _) as [| |records]; [done| |].
    all: destruct (normalize_int results_limit _) as [l|]; [|done].
    all: destruct (normalize_int scan_limit _) as [c|]; [|done].
    all: pose proof (prepare_fields_empty utc_now (Z.min l RESULTS_LIMIT)
                       (Z.min c SCAN_LIMIT) start_ end_ ids inc exc flds Hf)
           as Hp.
    all: destruct (prepare _ _ _ _ _ _ _ _ flds) as [sp|],
           (prepare _ _ _ _ _ _ _ _ PNone) as [sp'|]; try done.
    destruct Hp as (Hl & Hc & Hr). simpl. f_equal.
    by apply records_loop_ext.
Qed.

Lemma normalize_int_quoted layers s default :
  Forall (λ q, q ∈ _QUOTE_PAIRS) layers →
  normalize_int (PStr (wrap_layers layers s)) default
  = normalize_int (PStr s) default.
Proof. intros Hq. unfold normalize_int. by rewrite unwrap_layers. Qed.

Lemma normalize_timestamp_quoted layers s fallback :
  Forall (λ q, q ∈ _QUOTE_PAIRS) layers →
  normalize_timestamp (PStr (wrap_layers layers s)) fallback
  = normalize_timestamp (PStr s) fallback.
Proof.
  intros Hq. unfold normalize_timestamp, timestamp_text.
  by rewrite unwrap_layers.
Qed.

Lemma normalize_int_list_quoted layers s :
  Forall (λ q, q ∈ _QUOTE_PAIRS) layers →
  normalize_int_list (PStr (wrap_layers layers s))
  = normalize_int_list (PStr s).
Proof.
  intros Hq. unfold normalize_int_list. simpl.
  destruct recursion_limit; [done|]. simpl. by rewrite unwrap_layers.
Qed.

Lemma normalize_str_list_quoted layers s lowercase :
  Forall (λ q, q ∈ _QUOTE_PAIRS) layers →
  normalize_str_list (PStr (wrap_layers layers s)) lowercase
  = normalize_str_list (PStr s) lowercase.
Proof.
  intros Hq. unfold normalize_str_list. simpl.
  destruct recursion_limit; [done|]. simpl. by rewrite unwrap_layers.
Qed.

Lemma normalize_bound_quoted layers utc_now v :
  Forall (λ q, q ∈ _QUOTE_PAIRS) layers →
  normalize_bound utc_now (quote_arg layers v) = normalize_bound utc_now v.
Proof.
  intros Hq. destruct v; try done. simpl.
  by apply normalize_timestamp_quoted.
Qed.

Lemma prepare_quoted layers utc_now l c s e ids inc exc flds :
  Forall (λ q, q ∈ _QUOTE_PAIRS) layers →
  prepare utc_now l c (quote_arg layers s) (quote_arg layers e)
    (quote_arg layers ids) (quote_arg layers inc) (quote_arg layers exc)
    (quote_arg layers flds)
  = prepare utc_now l c s e ids inc exc flds.
Proof.
  intros Hq. unfold prepare. rewrite !normalize_bound_quoted by done.
  assert (∀ v lc, normalize_str_list (quote_arg layers v) lc
                  = normalize_str_list v lc) as Hstr.
  { intros v lc. destruct v; try done.
    by apply normalize_str_list_quoted. }
  assert (normalize_int_list (quote_arg layers ids) = normalize_int_list ids)
    as Hids.
  { destruct ids; try done. by apply normalize_int_list_quoted. }
  rewrite !Hstr, Hids.
  by destruct flds.
Qed.

(** X20: arguments may come in quotation marks.  Layers of matching
    quotes, backticks or typographic quotes around a string argument
    change nothing: not for the integer, timestamp and list normalisers,
    and not for a call of the filter in which the path and every string
    argument is wrapped. *)
Theorem quoted_arguments_are_unwrapped (layers : list (N * N))
  (fs : pystr → fs_entry) (utc_now : Z) (evtx_path s : pystr)
  (start_ end_ results_limit scan_limit ids inc exc flds : pyval)
  (default : Z) (fallback : option Z) (lowercase : bool) :
  Forall (λ q, q ∈ _QUOTE_PAIRS) layers →
  normalize_int (PStr (wrap_layers layers s)) default
  = normalize_int (PStr s) default
  ∧ normalize_timestamp (PStr (wrap_layers layers s)) fallback
    = normalize_timestamp (PStr s) fallback
  ∧ normalize_int_list (PStr (wrap_layers layers s))
    = normalize_int_list (PStr s)
  ∧ normalize_str_list (PStr (wrap_layers layers s)) lowercase
    = normalize_str_list (PStr s) lowercase
  ∧ iter_events_from_evtx fs utc_now (wrap_layers layers evtx_path)
      (quote_arg layers start_) (quote_arg layers end_)
      (quote_arg layers results_limit) (quote_arg layers scan_limit)
      (quote_arg layers ids) (quote_arg layers inc) (quote_arg layers exc)
      (quote_arg layers flds)
    = iter_events_from_evtx fs utc_now evtx_path start_ end_ results_limit
        scan_limit ids inc exc flds.
Proof.
  intros Hq. split_and!.
  - by apply normalize_int_quoted.
  - by apply normalize_timestamp_quoted.
  - by apply normalize_int_list_quoted.
  - by apply normalize_str_list_quoted.
  - unfold iter_events_from_evtx, iter_events_trace. f_equal.
    rewrite unwrap_layers by done.
    assert (∀ v d, normalize_int (quote_arg layers v) d = normalize_int v d)
      as Hint.
    { intros v d. destruct v; try done. by apply normalize_int_quoted. }
    rewrite !Hint.
    destruct (fs _); [done| |].
    all: destruct (normalize_int results_limit _); [|done].
    all: destruct (normalize_int scan_limit _); [|done].
    all: by rewrite prepare_quoted.
Qed.

(** A check of [int_safe] that runs. *)
Lemma int_safe_by_check f :
  forallb (λ part, negb (isdigit part) || bool_decide (is_Some (py_int part)))
          (Str.split 46 f) = true →
  int_safe f.
Proof.
  unfold int_safe. intros Hall. apply Forall_forall. intros part Hin Hd.
  rewrite forallb_forall in Hall.
  apply list_elem_of_In, Hall in Hin. rewrite Hd in Hin. simpl in Hin.
  by apply bool_decide_eq_true in Hin.
Qed.

(** The counters at the end of a call: [returned] counts the output, no
    more was returned than was examined, and no more examined than the
    file holds. *)
Lemma trace_counters fs utc_now evtx_path start_ end_ results_limit
  scan_limit ids inc exc flds output st :
  iter_events_trace fs utc_now evtx_path start_ end_ results_limit
    scan_limit ids inc exc flds = Ok (output, st) →
  returned st = Z.of_nat (length output)
  ∧ Z.of_nat (length output) ≤ scanned st
  ∧ ∀ records, fs (normalize_wrapping_quotes evtx_path) = Evtx records →
               scanned st ≤ Z.of_nat (length records).
Proof.
  unfold iter_events_trace.
  assert (∀ records' : list pulled,
            returned zero = Z.of_nat (length (@nil pyval))
            ∧ Z.of_nat (length (@nil pyval)) ≤ scanned zero
            ∧ scanned zero ≤ Z.of_nat (length records')) as Hzero
    by (intros; simpl; lia).
  destruct (fs _) as [| |records] eqn:Hfs.
  - intros [= <- <-]. split_and!; [done|done|]. by intros.
  - destruct (normalize_int results_limit _) as [l|];
      [|intros [= <- <-]; split_and!; [done|done|by intros]].
    destruct (normalize_int scan_limit _) as [c|];
      [|intros [= <- <-]; split_and!; [done|done|by intros]].
    by destruct (prepare _ _ _ _ _ _ _ _ _).
  - destruct (normalize_int results_limit _) as [l|];
      [|intros [= <- <-]; split_and!; [done|done|intros; apply Hzero]].
    destruct (normalize_int scan_limit _) as [c|];
      [|intros [= <- <-]; split_and!; [done|done|intros; apply Hzero]].
    destruct (prepare _ _ _ _ _ _ _ _ _) as [sp|]; [|done].
    simpl. intros [= Hloop].
    apply records_loop_run in Hloop
      as (n & Hscan & Hret & Hn & Hout & _).
    simpl in Hscan, Hret.
    assert (length output ≤ n)%nat.
    { rewrite Hout. etrans; [apply yields_length|].
      rewrite length_fmap, length_take. lia. }
    split_and!; [lia|lia|]. intros ? [= <-]. lia.
Qed.

End MoreArguments.

Section MoreCallers.
Context `{Builtins} `{Config} `{Serializer}.

Lemma get_events_inv fs utc_now provider start_ end_ results_limit ids inc
  exc flds output :
  get_events_from_evtx fs utc_now provider start_ end_ results_limit ids
    inc exc flds = Ok output →
  ∃ events st,
    iter_events_trace fs utc_now provider start_ end_ results_limit
      (PInt SCAN_LIMIT) ids inc exc flds = Ok (events, st)
    ∧ output = json_dumps <$> events.
Proof.
  unfold get_events_from_evtx, iter_events_from_evtx.
  destruct (iter_events_trace _ _ _ _ _ _ _ _ _ _ _) as [[events st]|];
    [|done].
  simpl. intros [= <-]. by exists events, st.
Qed.

(** X21: how much the string wrapper returns.  [get_events_from_evtx]
    returns the serialised output of the generator run with the default
    scan limit: one string per event, at most [RESULTS_LIMIT] and at most
    [SCAN_LIMIT] of them, no more than the result limit asked for, and
    no more than the file has records. *)
Theorem get_events_from_evtx_bounds (fs : pystr → fs_entry) (utc_now : Z)
  (provider : pystr)
  (start_ end_ results_limit ids inc exc flds : pyval)
  (output : list pystr) :
  0 ≤ RESULTS_LIMIT → 0 ≤ SCAN_LIMIT →
  get_events_from_evtx fs utc_now provider start_ end_ results_limit ids
    inc exc flds = Ok output →
  (∃ events,
     iter_events_from_evtx fs utc_now provider start_ end_ results_limit
       (PInt SCAN_LIMIT) ids inc exc flds = Ok events
     ∧ output = json_dumps <$> events)
  ∧ Z.of_nat (length output) ≤ RESULTS_LIMIT
  ∧ Z.of_nat (length output) ≤ SCAN_LIMIT
  ∧ (∀ l, normalize_int results_limit RESULTS_LIMIT = Some l →
          Z.of_nat (length output) ≤ l)
  ∧ (∀ records,
       fs (normalize_wrapping_quotes provider) = Evtx records →
       (length output ≤ length records)%nat).
Proof.
  intros HR HS (events & st & Htrace & ->)%get_events_inv.
  rewrite length_fmap.
  pose proof (call_respects_limits _ _ _ _ _ _ _ _ _ _ _ _ _ HR HS Htrace)
    as (Hres & Hscan & Hasked & _).
  pose proof (trace_counters _ _ _ _ _ _ _ _ _ _ _ _ _ Htrace)
    as (_ & Hle & Hfile).
  split_and!.
  - exists events. split; [|done].
    unfold iter_events_from_evtx. by rewrite Htrace.
  - done.
  - lia.
  - done.
  - intros records Hfs. specialize (Hfile records Hfs). lia.
Qed.

(** X22: what happens when the file cannot be used.  For a path that is
    not a regular file the wrapper returns the empty list, whatever the
    other arguments, also ones a normaliser would raise on; for a file
    that the parser cannot open, a call with a valid result limit raises:
    the parser is constructed outside the [try] of the loop. *)
Theorem get_events_from_evtx_file_errors (fs : pystr → fs_entry)
  (utc_now : Z) (provider : pystr)
  (start_ end_ results_limit ids inc exc flds : pyval) :
  (fs (normalize_wrapping_quotes provider) = NotAFile →
   get_events_from_evtx fs utc_now provider start_ end_ results_limit ids
     inc exc flds = Ok [])
  ∧ (fs (normalize_wrapping_quotes provider) = Unreadable →
     0 < SCAN_LIMIT →
     normalize_int results_limit RESULTS_LIMIT ≠ None →
     get_events_from_evtx fs utc_now provider start_ end_ results_limit ids
       inc exc flds = Raise).
Proof.
  unfold get_events_from_evtx, iter_events_from_evtx, iter_events_trace.
  split.
  - by intros ->.
  - intros -> HS Hl.
    destruct (normalize_int results_limit _) as [l|]; [|done].
    simpl. destruct (Z.ltb_spec 0 SCAN_LIMIT); [|lia].
    by destruct (prepare _ _ _ _ _ _ _ _ _).
Qed.

(** X23: the tool passes its arguments through.  With a positive
    [RESULTS_LIMIT], leaving out the arguments that are [None], as
    [_get_events_from_evtx_tool] does, is the same as passing them: the
    tool has the outcome of [get_events_from_evtx] on the same
    arguments. *)
Theorem tool_passes_arguments_through (fs : pystr → fs_entry) (utc_now : Z)
  (provider : pystr)
  (start_ end_ results_limit ids inc exc flds : pyval) :
  0 < RESULTS_LIMIT →
  _get_events_from_evtx_tool fs utc_now provider start_ end_ results_limit
    ids inc exc flds
  = get_events_from_evtx fs utc_now provider start_ end_ results_limit ids
      inc exc flds.
Proof.
  intros HR. unfold _get_events_from_evtx_tool.
  destruct results_limit; try done.
  unfold get_events_from_evtx, iter_events_from_evtx, iter_events_trace.
  simpl. by destruct (Z.ltb_spec 0 RESULTS_LIMIT); [|lia].
Qed.

End MoreCallers.

(** ** Closed instances

    The theorems above at concrete inputs, under the reference interpreter
    and the sample log. *)

Import Reference Sample.

(** C1, as stated, fails.  With a scan limit of 1 the second of two
    parseable records is never examined; and a parseable record whose time
    cannot be determined is skipped.  In both cases the output is not
    "every parseable record up to the result limit". *)
Lemma unconstrained_is_not_every_parseable_record :
  (iter_events_from_evtx (disk [Rec notepad; Rec lsass]) clock log_path
     PNone PNone (PInt 5) (PInt 1) PNone PNone PNone PNone
   = Ok [event notepad]
   ∧ every_parseable_record 5 [Rec notepad; Rec lsass]
     = [event notepad; event lsass])
  ∧ (iter_events_from_evtx (disk [Rec timeless]) clock log_path
       PNone PNone (PInt 5) PNone PNone PNone PNone PNone
     = Ok []
     ∧ every_parseable_record 5 [Rec timeless] = [event timeless])
  ∧ iter_events_from_evtx (disk [Rec notepad; Rec lsass]) clock log_path
      PNone PNone (PInt 5) (PInt 1) PNone PNone PNone PNone
    ≠ Ok (every_parseable_record 5 [Rec notepad; Rec lsass])
  ∧ iter_events_from_evtx (disk [Rec timeless]) clock log_path
      PNone PNone (PInt 5) PNone PNone PNone PNone PNone
    ≠ Ok (every_parseable_record 5 [Rec timeless]).
Proof.
  split_and!; try (vm_compute; reflexivity); vm_compute; discriminate.
Qed.

Lemma unconstrained_output_witness :
  iter_events_from_evtx (disk [Rec notepad; Rec timeless; Rec lsass]) clock
    log_path PNone PNone (PInt 5) (PStr (str "'2'")) PNone PNone PNone PNone
  = Ok (take (Z.to_nat (Z.min 5 RESULTS_LIMIT))
          (yields (plain_step
                   <$> take (Z.to_nat (Z.min 2 SCAN_LIMIT))
                         [Rec notepad; Rec timeless; Rec lsass]))).
Proof.
  apply (unconstrained_output
           (disk [Rec notepad; Rec timeless; Rec lsass]) clock log_path
           (PInt 5) (PStr (str "'2'"))
           [Rec notepad; Rec timeless; Rec lsass] 5 2).
  - reflexivity.
  - reflexivity.
  - reflexivity.
  - change (Forall reads_cleanly [Rec notepad; Rec timeless]).
    apply Forall_cons_2; [|apply Forall_cons_2; [|apply Forall_nil_2]];
      apply reads_cleanlyb_sound; vm_compute; reflexivity.
Defined.

Lemma scan_and_result_limits_bound_the_loop_witness :
  scanned (records_loop spec
             [Rec notepad; Rec timeless; Rec lsass; Rec notepad] zero).2
    ≤ cap spec
  ∧ Z.of_nat
      (length (records_loop spec
                 [Rec notepad; Rec timeless; Rec lsass; Rec notepad] zero).1)
    ≤ lim spec.
Proof.
  pose proof (scan_and_result_limits_bound_the_loop spec
                [Rec notepad; Rec timeless; Rec lsass; Rec notepad]
                (records_loop spec
                   [Rec notepad; Rec timeless; Rec lsass; Rec notepad]
                   zero).1
                (records_loop spec
                   [Rec notepad; Rec timeless; Rec lsass; Rec notepad]
                   zero).2) as Hbound.
  cbv zeta in Hbound.
  destruct Hbound as (Hscan & Hlen & _).
  - simpl. lia.
  - simpl. lia.
  - vm_compute. reflexivity.
  - split; [exact Hscan|exact Hlen].
Defined.

(** C3 at the failing input.  The path "a.²" reaches a list with the
    segment "²" (U+00B2): [isdigit] accepts it, [int] does not, and the
    [ValueError] leaves [_get_dotted] and [_project_fields]; the entry
    that the docstrings promise, keyed "a.²" with value [None], is never
    built.  Inside the loop the exception is swallowed and ends the
    stream: a call that projects such a path returns nothing, where the
    path with the index 1 returns one entry per record. *)
Theorem projection_raises_on_superscript_digit :
  let data_ := PDict [(str "a", PList [PInt 0])] in
  let path := str "a." ++ [178%N] in
  isdigit [178%N] = true
  ∧ py_int [178%N] = None
  ∧ _get_dotted data_ path = Raise
  ∧ _project_fields data_ [path] = Raise
  ∧ _project_fields data_ [str "a.0"; str "a.1"]
    = Ok (PDict [(str "a.0", PInt 0); (str "a.1", PNone)])
  ∧ iter_events_from_evtx (disk [Rec logon; Rec lsass]) clock log_path
      PNone PNone PNone PNone PNone PNone PNone
      (PStr (str "Event.EventData.Data." ++ [178%N]))
    = Ok []
  ∧ iter_events_from_evtx (disk [Rec logon; Rec lsass]) clock log_path
      PNone PNone PNone PNone PNone PNone PNone
      (PStr (str "Event.EventData.Data.1"))
    = Ok [PDict [(str "Event.EventData.Data.1", PStr (str "10.0.0.5"))];
          PDict [(str "Event.EventData.Data.1", PNone)]].
Proof. vm_compute. split_and!; reflexivity. Qed.

Lemma overlapping_keywords_cancel_witness :
  iter_events_from_evtx (disk [Rec notepad; Rec lsass]) clock log_path
    PNone PNone PNone PNone PNone
    (PList [PStr (str "Foo"); PStr (str "bar")])
    (PStr (str "'bar, FOO'")) PNone
  = iter_events_from_evtx (disk [Rec notepad; Rec lsass]) clock log_path
      PNone PNone PNone PNone PNone PNone PNone PNone.
Proof.
  apply (overlapping_keywords_cancel
           (disk [Rec notepad; Rec lsass]) clock log_path
           PNone PNone PNone PNone PNone
           (PList [PStr (str "Foo"); PStr (str "bar")])
           (PStr (str "'bar, FOO'")) PNone
           [str "foo"; str "bar"] [str "bar"; str "foo"]).
  - reflexivity.
  - reflexivity.
  - intros s. rewrite !elem_of_cons, !elem_of_nil. tauto.
Defined.

Lemma reversed_bounds_are_swapped_witness :
  iter_events_from_evtx (disk [Rec notepad; Rec lsass]) clock log_path
    (PStr (str "2030-01-01")) (PStr (str "2019-07-19T15:11:20"))
    PNone PNone PNone PNone PNone PNone
  = iter_events_from_evtx (disk [Rec notepad; Rec lsass]) clock log_path
      (PStr (str "2019-07-19T15:11:20")) (PStr (str "2030-01-01"))
      PNone PNone PNone PNone PNone PNone
  ∧ iter_events_from_evtx (disk [Rec notepad; Rec lsass]) clock log_path
      (PStr (str "2030-01-01")) (PStr (str "2019-07-19T15:11:20"))
      PNone PNone PNone PNone PNone PNone
    = Ok [event lsass].
Proof.
  split.
  - refine (proj1 (reversed_bounds_are_swapped
                     (disk [Rec notepad; Rec lsass]) clock log_path
                     (PStr (str "2030-01-01"))
                     (PStr (str "2019-07-19T15:11:20"))
                     PNone PNone PNone PNone PNone PNone _ _));
      discriminate.
  - vm_compute. reflexivity.
Defined.

Lemma decoder_failure_truncates_silently_witness :
  iter_events_from_evtx (disk [Rec notepad; DecoderError; Rec lsass]) clock
    log_path PNone PNone PNone PNone PNone PNone PNone PNone
  = iter_events_from_evtx (disk [Rec notepad]) clock log_path
      PNone PNone PNone PNone PNone PNone PNone PNone.
Proof.
  apply (decoder_failure_truncates_silently
           (disk [Rec notepad; DecoderError; Rec lsass])
           (disk [Rec notepad]) clock log_path
           PNone PNone PNone PNone PNone PNone PNone PNone
           [Rec notepad] [Rec lsass]);
    reflexivity.
Defined.

Lemma invalid_limit_returns_empty_witness :
  iter_events_from_evtx (disk [Rec notepad; Rec lsass]) clock log_path
    PNone PNone (PStr (str "ten")) PNone PNone PNone PNone PNone = Ok []
  ∧ iter_events_from_evtx (disk [Rec notepad; Rec lsass]) clock log_path
      PNone PNone PNone (PInt 0) PNone PNone PNone PNone = Ok []
  ∧ iter_events_trace (disk [Rec notepad; Rec lsass]) clock log_path
      PNone PNone (PInt 5000) (PStr (str "`7`")) PNone PNone PNone PNone
    = (sp ← prepare clock (Z.min 5000 RESULTS_LIMIT) (Z.min 7 SCAN_LIMIT)
              PNone PNone PNone PNone PNone PNone;
       records ← open_parser
                   (disk [Rec notepad; Rec lsass]
                      (normalize_wrapping_quotes log_path));
       Ok (records_loop sp records zero)).
Proof.
  split_and!.
  - apply (invalid_limit_returns_empty
             (disk [Rec notepad; Rec lsass]) clock log_path
             PNone PNone (PStr (str "ten")) PNone PNone PNone PNone PNone).
    left. reflexivity.
  - apply (invalid_limit_returns_empty
             (disk [Rec notepad; Rec lsass]) clock log_path
             PNone PNone PNone (PInt 0) PNone PNone PNone PNone).
    right. reflexivity.
  - refine (proj1 (proj2 (invalid_limit_returns_empty
                            (disk [Rec notepad; Rec lsass]) clock log_path
                            PNone PNone (PInt 5000) (PStr (str "`7`"))
                            PNone PNone PNone PNone) 5000 7 _ _ _)).
    + reflexivity.
    + reflexivity.
    + vm_compute. discriminate.
Defined.


(** The bound is applied, not ignored: with an unparseable [start] the two
    records of 2019 lie before "now" and are dropped, while without
    [start] both are returned. *)
Example unparseable_start_excludes_the_past :
  iter_events_from_evtx (disk [Rec notepad; Rec lsass]) clock log_path
    (PStr (str "yesterday")) PNone PNone PNone PNone PNone PNone PNone
  = Ok []
  ∧ iter_events_from_evtx (disk [Rec notepad; Rec lsass]) clock log_path
      PNone PNone PNone PNone PNone PNone PNone PNone
    = Ok [event notepad; event lsass].
Proof. split; vm_compute; reflexivity. Qed.


(** ** The repository's unit tests, replayed on the embedding *)

(** [tests/test_utils_int_normalization.py] *)
Example int_normalization_tests :
  normalize_int PNone 10 = Some 10
  ∧ normalize_int (PInt 7) 10 = Some 7
  ∧ normalize_int (PInt 0) 10 = None
  ∧ normalize_int (PInt (-5)) 10 = None
  ∧ normalize_int (PStr (str "42")) 10 = Some 42
  ∧ normalize_int (PStr (str "   8  ")) 10 = Some 8
  ∧ normalize_int (PStr (str "`12`")) 10 = Some 12
  ∧ normalize_int (PStr (str "'9'")) 10 = Some 9
  ∧ normalize_int (PStr (json "'15'")) 10 = Some 15
  ∧ normalize_int (PStr (str "+5")) 10 = Some 5
  ∧ normalize_int (PStr (str "-3")) 10 = None
  ∧ normalize_int (PStr (str "ten")) 10 = None
  ∧ normalize_int (PFloat 4623136420479977390) 10 = None.
Proof. vm_compute. split_and!; reflexivity. Qed.

(** [tests/test_utils_list_normlization_atomic.py] *)
Example list_normalization_tests :
  normalize_int_list PNone = Ok []
  ∧ normalize_int_list (PInt 3) = Ok [3]
  ∧ normalize_int_list (PStr (str "-11")) = Ok [-11]
  ∧ normalize_int_list (PStr (str "1, 2,03")) = Ok [1; 2; 3]
  ∧ normalize_int_list (PList [PStr (str "4"); PInt 5; PStr (str "006")])
    = Ok [4; 5; 6]
  ∧ normalize_int_list
      (PList [PStr (str "x"); PStr (str "1"); PStr (str "y"); PStr (str "1")])
    = Ok [1]
  ∧ normalize_int_list (PStr (json "`1`, '2', 3")) = Ok [1; 2; 3]
  ∧ normalize_str_list (PStr (str "a,b,  c")) false
    = Ok [str "a"; str "b"; str "c"]
  ∧ normalize_str_list
      (PList [PStr (str " A "); PStr (str "b"); PStr (str "A")]) true
    = Ok [str "a"; str "b"]
  ∧ normalize_str_list (PList [PStr (str ""); PStr (str "  "); PStr (str "x")])
      false
    = Ok [str "x"]
  ∧ normalize_str_list (PStr (json "'ping.exe'")) false = Ok [str "ping.exe"]
  ∧ normalize_str_list
      (PList [PStr (str "'A'"); PStr (str "`B`"); PStr (str "A")]) true
    = Ok [str "a"; str "b"].
Proof. vm_compute. split_and!; reflexivity. Qed.

(** [tests/test_utils_timestamp_normalization_atomic.py]; 2025-01-02 is
    day 739252 after 0001-01-01. *)
Example timestamp_normalization_tests :
  let day := 739252 * 86400000000 in
  let t030405 := ((3 * 60 + 4) * 60 + 5) * 1000000 in
  normalize_timestamp PNone None = Ok None
  ∧ normalize_timestamp PNone (Some clock) = Ok (Some clock)
  ∧ normalize_timestamp
      (PDatetime {| wall := day + 7200000000; tzoffset := Some 7200000000 |})
      None
    = Ok (Some day)
  ∧ normalize_timestamp (PStr (str "2025-01-02")) None = Ok (Some day)
  ∧ normalize_timestamp (PStr (str "2025-01-02 03:04:05")) None
    = Ok (Some (day + t030405))
  ∧ normalize_timestamp (PStr (str "2025-01-02 03:04:05.789 UTC")) None
    = Ok (Some (day + t030405 + 789000))
  ∧ normalize_timestamp (PStr (str "2025-01-02T03:04:05Z")) None
    = Ok (Some (day + t030405))
  ∧ normalize_timestamp (PStr (str "2025-01-02T03:04:05.100000+02:00")) None
    = Ok (Some (day + t030405 + 100000 - 7200000000))
  ∧ normalize_timestamp (PStr (json "`'2025-01-02T03:04:05Z'`")) None
    = Ok (Some (day + t030405)).
Proof. vm_compute. split_and!; reflexivity. Qed.

(** The scenarios of [tests/test_io_evtxio_filters.py], on the sample
    log: keyword filters, projection, an end bound between the two
    records, an event-id list. *)
Example filter_tests :
  iter_events_from_evtx (disk [Rec notepad; Rec lsass]) clock log_path
    PNone PNone PNone PNone PNone (PList [PStr (str "notepad")]) PNone PNone
  = Ok [event notepad]
  ∧ iter_events_from_evtx (disk [Rec notepad; Rec lsass]) clock log_path
      PNone (PStr (str "2019-07-19 15:11:17 UTC")) PNone PNone PNone
      (PList [PStr (str "EXE")]) PNone
      (PList [PStr (str "Event.System.TimeCreated.#attributes.SystemTime");
              PStr (str "Event.EventData.User")])
    = Ok [PDict
            [(str "Event.System.TimeCreated.#attributes.SystemTime",
              PStr (str "2019-07-19T15:11:16.487990Z"));
             (str "Event.EventData.User", PNone)]]
  ∧ iter_events_from_evtx (disk [Rec notepad; Rec lsass]) clock log_path
      PNone PNone PNone PNone (PStr (json "[10, '7']")) PNone
      (PList [PStr (str "ping"); PStr (str "NotePad")]) PNone
    = Ok [event lsass].
Proof. vm_compute. split_and!; reflexivity. Qed.

(** ** Closed instances of the further properties *)

Import ReferenceJson.

Lemma normalize_int_canonical_witness :
  0 < 25 ∧ normalize_int (PInt 25) RESULTS_LIMIT = Some 25.
Proof.
  apply (normalize_int_canonical (PStr (str "`25`")) RESULTS_LIMIT 25).
  - reflexivity.
  - vm_compute. reflexivity.
Defined.

Lemma normalize_int_list_no_duplicates_witness :
  NoDup [4624; 4625; 4672].
Proof.
  apply (normalize_int_list_no_duplicates
           (PList [PInt 4624; PStr (str "4624; 4625");
                   PStr (json "[4672, 4624]")])
           [4624; 4625; 4672]).
  vm_compute. reflexivity.
Defined.

Lemma normalize_str_list_entries_witness :
  (NoDup [str "foo"; str "bar"]
   ∧ Forall (token_form true) [str "foo"; str "bar"]
   ∧ Forall (λ s, s ≠ []) [str "foo"; str "bar"])
  ∧ Forall (λ s, s ≠ [] ∧ Str.strip s = s ∧ wrapped s = false
                 ∧ normalize_wrapping_quotes s = s)
           [str "Foo"; str "bar"; str "foo"].
Proof.
  split.
  - pose proof (normalize_str_list_entries
                  (PStr (str "Foo, `bar`; foo")) true
                  [str "foo"; str "bar"]) as Hlist.
    destruct Hlist as (Hnd & Hform & _ & Hne).
    + vm_compute. reflexivity.
    + split_and!; [exact Hnd|exact Hform|].
      apply Hne. intros t Ht. by destruct t.
  - apply (normalize_str_list_entries
             (PStr (str "Foo, `bar`; foo")) false
             [str "Foo"; str "bar"; str "foo"]).
    + vm_compute. reflexivity.
    + reflexivity.
Defined.

Lemma normalize_int_list_of_ints_witness :
  ∃ l,
    normalize_int_list (PList (PInt <$> [1; 10; 1])) = Ok l
    ∧ l = first_occurrences [1; 10; 1]
    ∧ NoDup l
    ∧ (∀ n, n ∈ l ↔ n ∈ [1; 10; 1])
    ∧ l `sublist_of` [1; 10; 1]
    ∧ (NoDup [1; 10; 1] → l = [1; 10; 1]).
Proof.
  apply (normalize_int_list_of_ints [1; 10; 1]).
  simpl. lia.
Defined.

Lemma normalize_str_list_of_tokens_witness :
  ∃ l,
    normalize_str_list
      (PList (PStr <$> [str "exe"; str "[x]"; str "exe"])) true = Ok l
    ∧ l = first_occurrences [str "exe"; str "[x]"; str "exe"]
    ∧ NoDup l
    ∧ (∀ s, s ∈ l ↔ s ∈ [str "exe"; str "[x]"; str "exe"])
    ∧ l `sublist_of` [str "exe"; str "[x]"; str "exe"]
    ∧ (NoDup [str "exe"; str "[x]"; str "exe"]
       → l = [str "exe"; str "[x]"; str "exe"]).
Proof.
  apply (normalize_str_list_of_tokens true
           [str "exe"; str "[x]"; str "exe"]).
  - simpl. lia.
  - apply Forall_cons_2;
      [|apply Forall_cons_2; [|apply Forall_cons_2; [|apply Forall_nil_2]]];
      (split_and!;
       [discriminate
       |vm_compute; reflexivity
       |apply (bool_decide_eq_true_1 _); vm_compute; reflexivity
       |apply (bool_decide_eq_true_1 _); vm_compute; reflexivity
       |vm_compute; reflexivity
       |vm_compute; reflexivity]).
Defined.

Lemma list_normalizers_keep_first_seen_order_witness :
  (∃ l1, normalize_str_list (PList [PStr (str "Exe, cmd")]) true = Ok l1
         ∧ l1 `prefix_of` [str "exe"; str "cmd"; str "dll"])
  ∧ (∃ l1, normalize_int_list (PList [PInt 10; PStr (str "1")]) = Ok l1
           ∧ l1 `prefix_of` [10; 1; 7]).
Proof.
  split.
  - apply (proj1 (list_normalizers_keep_first_seen_order
                    [PStr (str "Exe, cmd")]
                    [PStr (str "DLL; exe")] true)).
    vm_compute. reflexivity.
  - apply (proj2 (list_normalizers_keep_first_seen_order
                    [PInt 10; PStr (str "1")]
                    [PStr (json "[7, 10]")] true)).
    vm_compute. reflexivity.
Defined.

Lemma normalize_timestamp_outcomes_witness :
  normalize_timestamp (PStr (str "2019-07-19T15:11:16+02:00")) (Some clock)
  = Ok (Some (instant {| wall := 63699145876000000;
                         tzoffset := Some 7200000000 |}))
  ∧ normalize_timestamp (PStr (str "9999-12-31T23:59:59-01:00"))
      (Some clock) = Raise
  ∧ normalize_timestamp (PStr (str "yesterday")) (Some clock)
    = Ok (Some clock).
Proof.
  split_and!.
  - apply (proj1 (proj2 (normalize_timestamp_outcomes
                           (PStr (str "2019-07-19T15:11:16+02:00"))
                           (Some clock)))).
    + vm_compute. reflexivity.
    + intros (off & Hoff & _ & Hout). apply Hout.
      injection Hoff as <-. vm_compute. split; discriminate.
  - apply (proj1 (normalize_timestamp_outcomes
                    (PStr (str "9999-12-31T23:59:59-01:00")) (Some clock))).
    exists {| wall := 315537897599000000; tzoffset := Some (-3600000000) |}.
    split; [vm_compute; reflexivity|].
    exists (-3600000000). split_and!; [reflexivity|discriminate|].
    vm_compute. intros [_ Hmax]. by apply Hmax.
  - apply (proj1 (proj2 (proj2 (normalize_timestamp_outcomes
                                  (PStr (str "yesterday")) (Some clock))))).
    vm_compute. reflexivity.
Defined.

Lemma get_dotted_raises_only_on_bad_index_witness :
  (∃ part, part ∈ Str.split 46 (str "a." ++ [178%N])
           ∧ isdigit part = true ∧ py_int part = None)
  ∧ _get_dotted (PInt 7) (str "a.0") = Ok PNone.
Proof.
  split.
  - apply (proj1 (get_dotted_raises_only_on_bad_index
                    (PDict [(str "a", PList [PInt 0])])
                    (str "a." ++ [178%N]))).
    vm_compute. reflexivity.
  - apply (proj2 (get_dotted_raises_only_on_bad_index (PInt 7)
                    (str "a.0"))).
    exact I.
Defined.

Lemma as_event_id_unwraps_witness :
  _as_event_id (2 + 1)
    (wrap_id [str "#text"; str "Value"] (PStr (str "4624")))
  = _as_event_id 1 (PStr (str "4624"))
  ∧ _as_event_id 2
      (wrap_id [str "#text"; str "Value"] (PStr (str "4624"))) = Raise
  ∧ _as_event_id 2 (PDict [(str "Value", PInt 1);
                           (str "#text", PStr (str "4624"))])
    = _as_event_id 1 (PStr (str "4624")).
Proof.
  pose proof (as_event_id_unwraps [str "#text"; str "Value"]
                (PStr (str "4624"))
                [(str "Value", PInt 1); (str "#text", PStr (str "4624"))])
    as Hid.
  assert (Forall (λ k, k ∈ ID_KEYS) [str "#text"; str "Value"]) as Hkeys
    by (apply (bool_decide_eq_true_1 _); vm_compute; reflexivity).
  destruct (Hid 1%nat Hkeys) as (Hwrap & _ & Hfirst).
  destruct (Hid 2%nat Hkeys) as (_ & Hdeep & _).
  split_and!.
  - exact Hwrap.
  - apply Hdeep. simpl. lia.
  - apply Hfirst. vm_compute. reflexivity.
Defined.

Lemma project_fields_one_entry_per_path_witness :
  ∃ out,
    _project_fields (event logon)
      [str "Event.EventData.Data.1"; str "System.EventID";
       str "Event.EventData.Data.1"] = Ok (PDict out)
    ∧ out.*1 = first_occurrences [str "Event.EventData.Data.1";
                                  str "System.EventID";
                                  str "Event.EventData.Data.1"]
    ∧ NoDup out.*1
    ∧ out.*1 `sublist_of` [str "Event.EventData.Data.1";
                           str "System.EventID";
                           str "Event.EventData.Data.1"]
    ∧ (∀ f, f ∈ out.*1 ↔ f ∈ [str "Event.EventData.Data.1";
                               str "System.EventID";
                               str "Event.EventData.Data.1"])
    ∧ (∀ f, f ∈ [str "Event.EventData.Data.1"; str "System.EventID";
                 str "Event.EventData.Data.1"] →
            ∃ v, resolve (event logon) f = Ok v ∧ dict_get out f = Some v).
Proof.
  apply (project_fields_one_entry_per_path (event logon)
           [str "Event.EventData.Data.1"; str "System.EventID";
            str "Event.EventData.Data.1"]).
  apply Forall_cons_2;
    [|apply Forall_cons_2; [|apply Forall_cons_2; [|apply Forall_nil_2]]];
    apply int_safe_by_check; vm_compute; reflexivity.
Defined.

Lemma raising_limits_extends_output_witness :
  [event notepad] `prefix_of` [event notepad; event lsass].
Proof.
  apply (raising_limits_extends_output
           (disk [Rec notepad; Rec lsass; Rec logon]) clock log_path
           PNone PNone PNone PNone PNone PNone
           (PInt 1) (PStr (str "`2`")) (PStr (str "2")) PNone
           1 2 2 SCAN_LIMIT
           [event notepad] [event notepad; event lsass]);
    try (vm_compute; reflexivity); vm_compute; discriminate.
Defined.

Lemma loop_output_is_sound_witness :
  ∃ r ev event_dt,
    Rec r ∈ [Rec notepad; Rec timeless; Rec lsass; Rec notepad]
    ∧ passes spec r ev event_dt
    ∧ emit spec ev = Yield (PDict [(str "Event.System.EventID", PInt 10)]).
Proof.
  apply (loop_output_is_sound spec
           [Rec notepad; Rec timeless; Rec lsass; Rec notepad]
           (PDict [(str "Event.System.EventID", PInt 10)])).
  vm_compute. do 2 constructor.
Defined.

Lemma loop_output_is_complete_witness :
  PDict [(str "Event.System.EventID", PInt 10)]
  ∈ (records_loop spec [Rec notepad; Rec lsass] zero).1.
Proof.
  apply (loop_output_is_complete spec [Rec notepad; Rec lsass] lsass
           (event lsass) (PDict [(str "Event.System.EventID", PInt 10)])
           63699145886642464).
  - vm_compute. discriminate.
  - vm_compute. discriminate.
  - intros p [-> | [-> | Hp%elem_of_nil]%elem_of_cons]%elem_of_cons;
      [vm_compute; discriminate|vm_compute; discriminate|done].
  - do 2 constructor.
  - exists (payload "10" "2019-07-19T15:11:26.642464Z" "lsass.exe").
    split_and!.
    + reflexivity.
    + vm_compute. discriminate.
    + vm_compute. reflexivity.
    + right. exists (str "exe"). split; [constructor|].
      vm_compute. reflexivity.
    + intros k ->%list_elem_of_singleton. vm_compute. reflexivity.
    + right. exists (PInt 10), 10. split_and!.
      * vm_compute. reflexivity.
      * reflexivity.
      * apply (bool_decide_eq_true_1 _). vm_compute. reflexivity.
    + vm_compute. reflexivity.
    + intros s. discriminate.
    + intros e [= <-]. vm_compute. discriminate.
  - vm_compute. reflexivity.
Defined.

Lemma split_multi_parts_witness :
  Forall (λ p, p ≠ [] ∧ Str.strip p = p ∧ (44%N ∉ p) ∧ (59%N ∉ p))
         (_split_multi (str " 4624 ;; `4625`, "))
  ∧ _split_multi (str "  lsass.exe ")
    = if Str.nonempty (Str.strip (str "  lsass.exe "))
      then [Str.strip (str "  lsass.exe ")] else [].
Proof.
  split.
  - apply (proj1 (split_multi_parts (str " 4624 ;; `4625`, "))).
  - apply (proj2 (split_multi_parts (str "  lsass.exe ")));
      apply (bool_decide_eq_true_1 _); vm_compute; reflexivity.
Defined.

Lemma empty_filters_are_no_filters_witness :
  iter_events_from_evtx (disk [Rec notepad; Rec lsass]) clock log_path
    PNone PNone PNone PNone (PStr (str " , ;")) PNone PNone PNone
  = iter_events_from_evtx (disk [Rec notepad; Rec lsass]) clock log_path
      PNone PNone PNone PNone PNone PNone PNone PNone
  ∧ iter_events_from_evtx (disk [Rec notepad; Rec lsass]) clock log_path
      PNone PNone PNone PNone PNone PNone PNone
      (PList [PStr (str "''"); PStr (str " ")])
    = iter_events_from_evtx (disk [Rec notepad; Rec lsass]) clock log_path
        PNone PNone PNone PNone PNone PNone PNone PNone.
Proof.
  split.
  - apply (proj1 (empty_filters_are_no_filters
                    (disk [Rec notepad; Rec lsass]) clock log_path
                    PNone PNone PNone PNone (PStr (str " , ;"))
                    PNone PNone PNone)).
    vm_compute. reflexivity.
  - apply (proj2 (proj2 (proj2 (empty_filters_are_no_filters
                    (disk [Rec notepad; Rec lsass]) clock log_path
                    PNone PNone PNone PNone PNone PNone PNone
                    (PList [PStr (str "''"); PStr (str " ")]))))).
    vm_compute. reflexivity.
Defined.

Lemma quoted_arguments_are_unwrapped_witness :
  normalize_int (PStr (wrap_layers [(96, 96); (34, 34)]%N (str "25")))
    RESULTS_LIMIT
  = normalize_int (PStr (str "25")) RESULTS_LIMIT
  ∧ iter_events_from_evtx (disk [Rec notepad; Rec lsass]) clock
      (wrap_layers [(96, 96); (34, 34)]%N (str "C:\Logs\Sysmon.evtx"))
      (quote_arg [(96, 96); (34, 34)]%N (PStr (str "2019-07-19T15:11:20")))
      (quote_arg [(96, 96); (34, 34)]%N PNone)
      (quote_arg [(96, 96); (34, 34)]%N (PStr (str "5")))
      (quote_arg [(96, 96); (34, 34)]%N (PInt 7))
      (quote_arg [(96, 96); (34, 34)]%N (PStr (str "1, 10")))
      (quote_arg [(96, 96); (34, 34)]%N (PStr (str "EXE")))
      (quote_arg [(96, 96); (34, 34)]%N PNone)
      (quote_arg [(96, 96); (34, 34)]%N (PStr (str "Event.System.EventID")))
    = iter_events_from_evtx (disk [Rec notepad; Rec lsass]) clock
        (str "C:\Logs\Sysmon.evtx")
        (PStr (str "2019-07-19T15:11:20")) PNone (PStr (str "5")) (PInt 7)
        (PStr (str "1, 10")) (PStr (str "EXE")) PNone
        (PStr (str "Event.System.EventID")).
Proof.
  pose proof (quoted_arguments_are_unwrapped [(96, 96); (34, 34)]%N
                (disk [Rec notepad; Rec lsass]) clock
                (str "C:\Logs\Sysmon.evtx") (str "25")
                (PStr (str "2019-07-19T15:11:20")) PNone (PStr (str "5"))
                (PInt 7) (PStr (str "1, 10")) (PStr (str "EXE")) PNone
                (PStr (str "Event.System.EventID"))
                RESULTS_LIMIT None true) as Hq.
  destruct Hq as (Hint & _ & _ & _ & Hcall).
  - repeat constructor.
  - split; [exact Hint|exact Hcall].
Defined.

Lemma get_events_from_evtx_bounds_witness :
  (length [json "{'Event.System.EventID': 1}"] ≤ 2)%nat
  ∧ Z.of_nat (length [json "{'Event.System.EventID': 1}"]) ≤ 1.
Proof.
  pose proof (get_events_from_evtx_bounds
                (disk [Rec notepad; Rec lsass]) clock log_path
                PNone PNone (PInt 1) PNone PNone PNone
                (PStr (str "Event.System.EventID"))
                [json "{'Event.System.EventID': 1}"]) as Hb.
  destruct Hb as (_ & _ & _ & Hasked & Hfile).
  - vm_compute. discriminate.
  - vm_compute. discriminate.
  - vm_compute. reflexivity.
  - split.
    + apply (Hfile [Rec notepad; Rec lsass]). vm_compute. reflexivity.
    + apply (Hasked 1). vm_compute. reflexivity.
Defined.

Lemma get_events_from_evtx_file_errors_witness :
  get_events_from_evtx (disk [Rec notepad]) clock (str "C:\Logs")
    PNone PNone PNone PNone PNone PNone PNone = Ok []
  ∧ get_events_from_evtx (λ _, Unreadable) clock log_path
      PNone PNone PNone PNone PNone PNone PNone = Raise.
Proof.
  split.
  - apply (proj1 (get_events_from_evtx_file_errors (disk [Rec notepad])
                    clock (str "C:\Logs")
                    PNone PNone PNone PNone PNone PNone PNone)).
    vm_compute. reflexivity.
  - apply (proj2 (get_events_from_evtx_file_errors (λ _, Unreadable)
                    clock log_path
                    PNone PNone PNone PNone PNone PNone PNone)).
    + reflexivity.
    + reflexivity.
    + vm_compute. discriminate.
Defined.

Lemma tool_passes_arguments_through_witness :
  _get_events_from_evtx_tool (disk [Rec notepad; Rec lsass]) clock log_path
    PNone PNone PNone (PInt 10) PNone PNone PNone
  = get_events_from_evtx (disk [Rec notepad; Rec lsass]) clock log_path
      PNone PNone PNone (PInt 10) PNone PNone PNone.
Proof.
  apply (tool_passes_arguments_through (disk [Rec notepad; Rec lsass])
           clock log_path PNone PNone PNone (PInt 10) PNone PNone PNone).
  reflexivity.
Defined.
